(** * svg_to_obj.py: path parser, fan triangulation and extrusion

    A shallow embedding of [src/svg_to_obj.py] and the properties of its
    geometry pipeline.

    Modelling conventions.
    - A Python [str] is a [list ascii]; string literals of the source are
      written ["..."] and converted with [chars].
    - A Python [float] is an exact rational ([Q]): rounding, infinities and
      NaN are not represented.  Numeric equality of the source ([==], [!=])
      is [Qeq_bool].  What is stated over [Q] is the structure of the
      results and the formulas they are computed with.
    - What depends on the arithmetic of floats itself, the end samples of
      the curve sampler, is stated over IEEE 754 binary64 ([Binary64]).
    - A Python [int] used as a length or an index is a [nat].
    - A call either returns or raises; [outcome] records which.  The one
      [while] loop of the source runs on an iteration budget, and the third
      constructor of [outcome] says that the budget ran out; the budget the
      parser passes is shown to be enough. *)

From Stdlib Require Import Strings.Ascii Strings.String.
From Stdlib Require Import List Bool Arith ZArith QArith Lia.
From Stdlib Require Floats.
Import ListNotations.

Local Open Scope nat_scope.

(* ------------------------------------------------------------------ *)
(** ** Outcomes of a call *)

Inductive exn : Type :=
| IndexError          (* [tokens[i]] with [i] out of range *)
| ValueError          (* [float(s)] on a string that is no number *)
| ZeroDivisionError   (* [i / 0] *)
| OverflowError.      (* [x ** n] out of the range of a float *)

Inductive outcome (A : Type) : Type :=
| Return (a : A)
| Raise (e : exn)
| OutOfBudget.

Arguments Return {A} a.
Arguments Raise {A} e.
Arguments OutOfBudget {A}.

Definition bind {A B : Type} (m : outcome A) (k : A -> outcome B) : outcome B :=
  match m with
  | Return a => k a
  | Raise e => Raise e
  | OutOfBudget => OutOfBudget
  end.

Notation "x <- m ;; k" := (bind m (fun x => k))
  (at level 61, m at next level, right associativity).

Definition raises {A : Type} (m : outcome A) : bool :=
  match m with Raise _ => true | _ => false end.

Definition returns {A : Type} (m : outcome A) : bool :=
  match m with Return _ => true | _ => false end.

(* ------------------------------------------------------------------ *)
(** ** Strings *)

Definition str : Type := list ascii.

Definition chars (s : string) : str := list_ascii_of_string s.

Fixpoint str_eqb (a b : str) : bool :=
  match a, b with
  | [], [] => true
  | x :: a', y :: b' => Ascii.eqb x y && str_eqb a' b'
  | _, _ => false
  end.

Fixpoint startswith (s prefix : str) : bool :=
  match prefix, s with
  | [], _ => true
  | p :: prefix', c :: s' => Ascii.eqb p c && startswith s' prefix'
  | _ :: _, [] => false
  end.

(** [sub in s] on strings: [sub] occurs in [s] as a contiguous substring. *)
Fixpoint str_in (sub s : str) : bool :=
  startswith s sub ||
  match s with
  | [] => false
  | _ :: s' => str_in sub s'
  end.

(** [c in s] for a single character. *)
Definition char_in (c : ascii) (s : str) : bool :=
  existsb (Ascii.eqb c) s.

(** [range(a, b)] *)
Definition range (a b : nat) : list nat := seq a (b - a).

(* ------------------------------------------------------------------ *)
(** ** The fragment of [re] used by the tokenizer

    Character classes, sequence, alternation, the greedy optional [r?] and
    the greedy repetitions [[..]*] and [[..]+] of a class.  [rmatch] is a
    backtracking matcher with the priorities of Python's [re]: the left
    alternative first, the longest repetition first, each retried with less
    when what follows fails. *)

Module Re.

Inductive class : Type :=
| OneOf (s : string)             (* [abc] *)
| Between (lo hi : ascii).       (* [a-z] *)

Definition in_class (cl : class) (c : ascii) : bool :=
  match cl with
  | OneOf s => char_in c (chars s)
  | Between lo hi =>
      (nat_of_ascii lo <=? nat_of_ascii c) && (nat_of_ascii c <=? nat_of_ascii hi)
  end.

Inductive regex : Type :=
| Chr (c : ascii)                (* an escaped literal, as [\.] *)
| Cls (cl : class)
| Seq (r1 r2 : regex)
| Alt (r1 r2 : regex)
| Opt (r : regex)
| Star (cl : class)
| Plus (cl : class).

Section Matcher.
Context {A : Type}.

Definition orelse (a b : option A) : option A :=
  match a with Some _ => a | None => b end.

(** [[cl]*] followed by [k]: take a character of the class and go on, and
    fall back to stopping here. *)
Fixpoint repeat_class (cl : class) (s : str) (k : str -> option A) : option A :=
  match s with
  | c :: s' =>
      if in_class cl c then orelse (repeat_class cl s' k) (k s) else k s
  | [] => k s
  end.

Fixpoint rmatch (r : regex) (s : str) (k : str -> option A) : option A :=
  match r with
  | Chr a =>
      match s with
      | c :: s' => if Ascii.eqb a c then k s' else None
      | [] => None
      end
  | Cls cl =>
      match s with
      | c :: s' => if in_class cl c then k s' else None
      | [] => None
      end
  | Seq r1 r2 => rmatch r1 s (fun s' => rmatch r2 s' k)
  | Alt r1 r2 => orelse (rmatch r1 s k) (rmatch r2 s k)
  | Opt r1 => orelse (rmatch r1 s k) (k s)
  | Star cl => repeat_class cl s k
  | Plus cl =>
      match s with
      | c :: s' => if in_class cl c then repeat_class cl s' k else None
      | [] => None
      end
  end.
End Matcher.

(** [pattern.match(s)]: what is left of [s] after the match at its start. *)
Definition match_here (r : regex) (s : str) : option str := rmatch r s Some.

(** [re.findall(r, s)] for a pattern without groups whose matches are never
    empty: scan left to right, at each position take the match if there is
    one and resume after it, else move one character on.  [inside] counts the
    characters of the current match still to be passed. *)
Fixpoint findall_from (r : regex) (s : str) (inside : nat) : list str :=
  match s with
  | [] => []
  | _ :: s' =>
      match inside with
      | S n => findall_from r s' n
      | O =>
          match match_here r s with
          | Some rest =>
              let len := length s - length rest in
              match len with
              | O => findall_from r s' 0
              | S n => firstn len s :: findall_from r s' n
              end
          | None => findall_from r s' 0
          end
      end
  end.

Definition findall (r : regex) (s : str) : list str := findall_from r s 0.

(** The language of a regex, for reasoning about what [rmatch] accepts. *)
Inductive matches : regex -> str -> Prop :=
| m_chr c : matches (Chr c) [c]
| m_cls cl c : in_class cl c = true -> matches (Cls cl) [c]
| m_seq r1 r2 s1 s2 : matches r1 s1 -> matches r2 s2 -> matches (Seq r1 r2) (s1 ++ s2)
| m_alt_l r1 r2 s : matches r1 s -> matches (Alt r1 r2) s
| m_alt_r r1 r2 s : matches r2 s -> matches (Alt r1 r2) s
| m_opt_none r : matches (Opt r) []
| m_opt_some r s : matches r s -> matches (Opt r) s
| m_star cl s : forallb (in_class cl) s = true -> matches (Star cl) s
| m_plus cl c s :
    in_class cl c = true -> forallb (in_class cl) s = true -> matches (Plus cl) (c :: s).

End Re.

(* ------------------------------------------------------------------ *)
(** ** [float(s)]

    The conversion of a decimal literal: an optional sign, digits with an
    optional fraction (at least one digit on one side of the point), an
    optional exponent.  The value is exact.  The other spellings Python's
    [float] accepts (surrounding blanks, [_] between digits, [inf], [nan])
    are not covered and raise here; no token of the parser has them. *)

Definition is_digit (c : ascii) : bool :=
  (48 <=? nat_of_ascii c) && (nat_of_ascii c <=? 57).

Definition digit_value (c : ascii) : Z := Z.of_nat (nat_of_ascii c - 48).

Definition int_of_digits (ds : str) : Z :=
  fold_left (fun acc d => (10 * acc + digit_value d)%Z) ds 0%Z.

Fixpoint span (p : ascii -> bool) (s : str) : str * str :=
  match s with
  | c :: s' =>
      if p c then let (a, b) := span p s' in (c :: a, b) else ([], s)
  | [] => ([], [])
  end.

(** The leading sign: whether it is a minus, and what follows it. *)
Definition take_sign (s : str) : bool * str :=
  match s with
  | c :: s' =>
      if Ascii.eqb c "-" then (true, s')
      else if Ascii.eqb c "+" then (false, s')
      else (false, s)
  | [] => (false, [])
  end.

(** The exponent part, which must reach the end of the string. *)
Definition exponent (s : str) : option Z :=
  match s with
  | [] => Some 0%Z
  | c :: s' =>
      if char_in c (chars "eE") then
        let (neg, s1) := take_sign s' in
        let (ds, rest) := span is_digit s1 in
        match ds, rest with
        | _ :: _, [] => Some (if neg then (- int_of_digits ds)%Z else int_of_digits ds)
        | _, _ => None
        end
      else None
  end.

(** The digits before the point, the digits after it, and what follows. *)
Definition mantissa (s : str) : str * str * str :=
  let (ip, s2) := span is_digit s in
  match s2 with
  | c :: s' =>
      if Ascii.eqb c "." then let (fp, s3) := span is_digit s' in (ip, fp, s3)
      else (ip, [], s2)
  | [] => (ip, [], [])
  end.

Definition float (s : str) : outcome Q :=
  let (neg, s1) := take_sign s in
  let '(ip, fp, s3) := mantissa s1 in
  match ip ++ fp with
  | [] => Raise ValueError
  | ds =>
      match exponent s3 with
      | None => Raise ValueError
      | Some e =>
          let v := (inject_Z (int_of_digits ds)
                    * (10 # 1) ^ (e - Z.of_nat (length fp)))%Q in
          Return (if neg then (- v)%Q else v)
      end
  end.

(* ------------------------------------------------------------------ *)
(** ** [approximate_bezier] (lines 10-19) *)

Definition point : Type := Q * Q.

Definition of_int (n : nat) : Q := inject_Z (Z.of_nat n).

Definition approximate_bezier (p0 p1 p2 p3 : point) (segments : nat)
  : outcome (list point) :=
  fold_left
    (fun acc i =>
       points <- acc ;;
       t <- (if segments =? 0 then Raise ZeroDivisionError
             else Return (of_int i / of_int segments)%Q) ;;
       let x := ((1-t)^3 * fst p0 + 3*(1-t)^2*t * fst p1
                 + 3*(1-t)*t^2 * fst p2 + t^3 * fst p3)%Q in
       let y := ((1-t)^3 * snd p0 + 3*(1-t)^2*t * snd p1
                 + 3*(1-t)*t^2 * snd p2 + t^3 * snd p3)%Q in
       Return (points ++ [(x, y)]))
    (range 0 (segments + 1))
    (Return []).

(* ------------------------------------------------------------------ *)
(** ** The sampler in binary64

    Lines 10-19 once more, as the interpreter computes them: a [float] is
    an IEEE 754 binary64 number, every operation rounds, a sum or a product
    can overflow to an infinity, and [0.0 * inf] is NaN.  What the end
    samples are depends on this, and not only on the formula.

    [x ** n] is CPython's [float_pow]: it settles the exponent [0], a NaN,
    infinite, zero or unit base itself, and calls the C library's [pow] on
    the rest, raising [OverflowError] when the result is out of range.  The
    library call together with that check is the parameter [pow] of the
    definitions below; nothing is assumed about it. *)

Module Binary64.

Import Floats.
Local Open Scope float_scope.

Definition point : Type := float * float.

(** [float(n)] of an [int]; exact up to [2^53], and [i / segments] on two
    such [int]s is the quotient of their floats. *)
Definition of_int (n : nat) : float := of_uint63 (Uint63.of_Z (Z.of_nat n)).

Section Pow.

Variable pow : float -> float -> outcome float.

(** [iv ** n] for an [int] [n >= 0]. *)
Definition float_pow (iv : float) (n : nat) : outcome float :=
  if (n =? 0)%nat then Return 1
  else if is_nan iv then Return iv
  else if is_infinity iv then Return (if Nat.odd n then iv else abs iv)
  else if iv =? 0 then Return (if Nat.odd n then iv else 0)
  else
    let negate_result := (iv <? 0) && Nat.odd n in
    let iv := if iv <? 0 then - iv else iv in
    if iv =? 1 then Return (if negate_result then -1 else 1)
    else
      ix <- pow iv (of_int n) ;;
      Return (if negate_result then - ix else ix).

(** The right-hand side of line 15 (and of line 16): the four powers in the
    order the interpreter takes them, then the products and the sums from
    left to right. *)
Definition coordinate (t a0 a1 a2 a3 : float) : outcome float :=
  u3 <- float_pow (1 - t) 3 ;;
  u2 <- float_pow (1 - t) 2 ;;
  t2 <- float_pow t 2 ;;
  t3 <- float_pow t 3 ;;
  Return (u3 * a0 + 3 * u2 * t * a1 + 3 * (1 - t) * t2 * a2 + t3 * a3).

(** Lines 14-16 for one [i]. *)
Definition sample (p0 p1 p2 p3 : point) (segments i : nat) : outcome point :=
  t <- (if (segments =? 0)%nat then Raise ZeroDivisionError
        else Return (of_int i / of_int segments)) ;;
  x <- coordinate t (fst p0) (fst p1) (fst p2) (fst p3) ;;
  y <- coordinate t (snd p0) (snd p1) (snd p2) (snd p3) ;;
  Return (x, y).

Definition approximate_bezier (p0 p1 p2 p3 : point) (segments : nat)
  : outcome (list point) :=
  fold_left
    (fun acc i =>
       points <- acc ;;
       p <- sample p0 p1 p2 p3 segments i ;;
       Return (points ++ [p]))
    (range 0 (segments + 1))
    (Return []).

End Pow.

(** A control point as lines 98-104 leave it: [x += current_x],
    [y += current_y] for the lowercase letter. *)
Definition absolute (relative : bool) (current p : point) : point :=
  if relative then (fst p + fst current, snd p + snd current) else p.

(** A number that is neither an infinity nor NaN. *)
Definition is_finite_SF (x : spec_float) : bool :=
  match x with
  | S754_zero _ | S754_finite _ _ _ => true
  | _ => false
  end.

Definition is_zero_SF (x : spec_float) : bool :=
  match x with S754_zero _ => true | _ => false end.

Definition finite (x : float) : bool := is_finite_SF (Prim2SF x).

Definition finite_point (p : point) : bool := finite (fst p) && finite (snd p).

(** [p == q] on pairs of floats. *)
Definition point_eqb (p q : point) : bool := (fst p =? fst q) && (snd p =? snd q).

(** [r] is the finite number [a], up to the sign of a zero. *)
Definition same_finite (a r : spec_float) : Prop :=
  match a with
  | S754_zero _ => is_zero_SF r = true
  | S754_finite _ _ _ => r = a
  | _ => False
  end.

(** A stand-in for the library call where an example needs one: the power
    as a product. *)
Definition pow_by_products (x y : float) : outcome float :=
  Return (if y =? 2 then x * x else x * x * x).

End Binary64.

(* ------------------------------------------------------------------ *)
(** ** [parse_svg_path_robust] (lines 21-124) *)

(** The pattern of line 28:
    [[MLHVZCmlhvzc]|[-+]?[0-9]*\.?[0-9]+(?:[eE][-+]?[0-9]+)?] *)
Definition digit : Re.class := Re.Between "0" "9".

Definition sign : Re.regex := Re.Cls (Re.OneOf "-+").

Definition command_pattern : Re.regex := Re.Cls (Re.OneOf "MLHVZCmlhvzc").

Definition exponent_pattern : Re.regex :=
  Re.Seq (Re.Cls (Re.OneOf "eE")) (Re.Seq (Re.Opt sign) (Re.Plus digit)).

Definition number_pattern : Re.regex :=
  Re.Seq (Re.Opt sign)
  (Re.Seq (Re.Star digit)
  (Re.Seq (Re.Opt (Re.Chr "."))
  (Re.Seq (Re.Plus digit)
          (Re.Opt exponent_pattern)))).

Definition token_pattern : Re.regex := Re.Alt command_pattern number_pattern.

Definition tokenize (path_d : str) : list str := Re.findall token_pattern path_d.

(** The local variables of the function. *)
Record locals : Type := mkLocals {
  points : list point;
  current_x : Q;
  current_y : Q;
  start_x : Q;
  start_y : Q;
  i : nat
}.

(** [tokens[j]] *)
Definition item (tokens : list str) (j : nat) : outcome str :=
  match nth_error tokens j with
  | Some t => Return t
  | None => Raise IndexError
  end.

(** [float(tokens[j])] *)
Definition float_item (tokens : list str) (j : nat) : outcome Q :=
  t <- item tokens j ;; float t.

(** [(a, b) != (c, d)] on pairs of numbers. *)
Definition pair_neq (a b c d : Q) : bool := negb (Qeq_bool a c && Qeq_bool b d).

(** One turn of the [while] loop (lines 32-122). *)
Definition loop_body (tokens : list str) (st : locals) : outcome locals :=
  cmd <- item tokens (i st) ;;
  let i := i st + 1 in
  let pts := points st in
  let cx := current_x st in
  let cy := current_y st in
  let sx := start_x st in
  let sy := start_y st in
  if str_in cmd (chars "Mm") then
    x <- float_item tokens i ;;
    y <- float_item tokens (i + 1) ;;
    let i := i + 2 in
    let '(cx, cy) :=
      if str_eqb cmd (chars "M") then (x, y) else ((cx + x)%Q, (cy + y)%Q) in
    Return (mkLocals (pts ++ [(cx, cy)]) cx cy cx cy i)
  else if str_in cmd (chars "Ll") then
    x <- float_item tokens i ;;
    y <- float_item tokens (i + 1) ;;
    let i := i + 2 in
    let '(cx, cy) :=
      if str_eqb cmd (chars "L") then (x, y) else ((cx + x)%Q, (cy + y)%Q) in
    Return (mkLocals (pts ++ [(cx, cy)]) cx cy sx sy i)
  else if str_in cmd (chars "Hh") then
    x <- float_item tokens i ;;
    let i := i + 1 in
    let cx := if str_eqb cmd (chars "H") then x else (cx + x)%Q in
    Return (mkLocals (pts ++ [(cx, cy)]) cx cy sx sy i)
  else if str_in cmd (chars "Vv") then
    y <- float_item tokens i ;;
    let i := i + 1 in
    let cy := if str_eqb cmd (chars "V") then y else (cy + y)%Q in
    Return (mkLocals (pts ++ [(cx, cy)]) cx cy sx sy i)
  else if str_in cmd (chars "Cc") then
    x1 <- float_item tokens i ;;
    y1 <- float_item tokens (i + 1) ;;
    x2 <- float_item tokens (i + 2) ;;
    y2 <- float_item tokens (i + 3) ;;
    x <- float_item tokens (i + 4) ;;
    y <- float_item tokens (i + 5) ;;
    let i := i + 6 in
    let '(x1, y1, x2, y2, x, y) :=
      if str_eqb cmd (chars "c")
      then ((x1 + cx)%Q, (y1 + cy)%Q, (x2 + cx)%Q, (y2 + cy)%Q, (x + cx)%Q, (y + cy)%Q)
      else (x1, y1, x2, y2, x, y) in
    curve_points <- approximate_bezier (cx, cy) (x1, y1) (x2, y2) (x, y) 5 ;;
    Return (mkLocals (pts ++ skipn 1 curve_points) x y sx sy i)
  else if str_in cmd (chars "Zz") then
    let pts := if pair_neq cx cy sx sy then pts ++ [(sx, sy)] else pts in
    Return (mkLocals pts sx sy sx sy i)
  else
    Return (mkLocals pts cx cy sx sy i).

(** [while i < len(tokens): ...] on a budget of turns. *)
Fixpoint while_loop (budget : nat) (tokens : list str) (st : locals) : outcome locals :=
  if i st <? length tokens then
    match budget with
    | O => OutOfBudget
    | S budget' => st' <- loop_body tokens st ;; while_loop budget' tokens st'
    end
  else Return st.

(** Every turn moves [i] on, so [len(tokens)] turns are enough
    (lemma [while_loop_budget]). *)
Definition parse_svg_path_robust (path_d : string) : outcome (list point) :=
  let tokens := tokenize (chars path_d) in
  st <- while_loop (length tokens) tokens (mkLocals [] 0 0 0 0 0) ;;
  Return (points st).

(* ------------------------------------------------------------------ *)
(** ** [triangulate_polygon_earclip] (lines 126-137) *)

(** A triangle [[a, b, c]] of the source: three indices. *)
Definition triangle : Type := nat * nat * nat.

Definition triangulate_polygon_earclip {A : Type} (points : list A) : list triangle :=
  if length points <? 3 then []
  else
    fold_left (fun triangles i => triangles ++ [(0, i, i + 1)])
              (range 1 (length points - 1)) [].

(* ------------------------------------------------------------------ *)
(** ** [svg_to_obj] (lines 139-250): the loop over the paths

    Reading the document (lines 143-164) gives the [d] attribute of every
    path element and the scale; writing the file (lines 230-250) prints the
    two buffers.  The model starts from the attributes, the scale and the
    depth and ends with the buffers. *)

Definition vertex : Type := Q * Q * Q.

Record mesh : Type := mkMesh {
  vertices : list vertex;
  faces : list triangle
}.

(** Lines 180-185. *)
Definition scale_points (scale : Q) (points : list point) : list point :=
  fold_left
    (fun scaled_points '(x, y) =>
       let scaled_x := (x * scale)%Q in
       let scaled_y := (- y * scale)%Q in
       scaled_points ++ [(scaled_x, scaled_y)])
    points [].

(** Lines 187-228: what one polygon adds to the buffers. *)
Definition extrude (depth : Q) (scaled_points : list point) (m : mesh) : mesh :=
  let vertices := vertices m in
  let faces := faces m in
  let front_start := length vertices in
  let vertices :=
    fold_left (fun vs '(x, y) => vs ++ [(x, y, (depth / 2)%Q)])
              scaled_points vertices in
  let back_start := length vertices in
  let vertices :=
    fold_left (fun vs '(x, y) => vs ++ [(x, y, (- depth / 2)%Q)])
              scaled_points vertices in
  let front_triangles := triangulate_polygon_earclip scaled_points in
  let faces :=
    fold_left
      (fun fs '(t0, t1, t2) =>
         fs ++ [(front_start + t0 + 1, front_start + t1 + 1, front_start + t2 + 1)])
      front_triangles faces in
  let faces :=
    fold_left
      (fun fs '(t0, t1, t2) =>
         fs ++ [(back_start + t0 + 1, back_start + t2 + 1, back_start + t1 + 1)])
      front_triangles faces in
  let n := length scaled_points in
  let faces :=
    fold_left
      (fun fs i =>
         let next_i := (i + 1) mod n in
         let v1 := front_start + i + 1 in
         let v2 := back_start + i + 1 in
         let v3 := back_start + next_i + 1 in
         let v4 := front_start + next_i + 1 in
         (fs ++ [(v1, v2, v3)]) ++ [(v1, v3, v4)])
      (range 0 n) faces in
  mkMesh vertices faces.

(** One turn of [for path in paths] (lines 170-228); [path_d] is
    [path.get('d')], [None] when the element has no such attribute. *)
Definition path_turn (scale depth : Q) (path_d : option string) (m : mesh)
  : outcome mesh :=
  match path_d with
  | None => Return m
  | Some EmptyString => Return m
  | Some d =>
      points <- parse_svg_path_robust d ;;
      if length points <? 3 then Return m
      else Return (extrude depth (scale_points scale points) m)
  end.

Definition for_paths (scale depth : Q) (paths : list (option string)) (m : mesh)
  : outcome mesh :=
  fold_left (fun acc path_d => m' <- acc ;; path_turn scale depth path_d m')
            paths (Return m).

Definition svg_to_obj (scale depth : Q) (paths : list (option string))
  : outcome mesh :=
  for_paths scale depth paths (mkMesh [] []).

(* ------------------------------------------------------------------ *)
(** ** Notions of the specification *)

(** A token that is one of the twelve command letters. *)
Definition is_command (t : str) : bool :=
  match t with
  | [c] => char_in c (chars "MLHVZCmlhvzc")
  | _ => false
  end.

(** The operand count the specification gives each command:
    Move and Line 2, Horizontal and Vertical 1, Cubic 6, Close 0. *)
Definition operand_count (t : str) : nat :=
  match t with
  | [c] =>
      if char_in c (chars "MmLl") then 2
      else if char_in c (chars "HhVv") then 1
      else if char_in c (chars "Cc") then 6
      else 0
  | _ => 0
  end.

(** The first [k] tokens of [toks] exist and are numbers. *)
Fixpoint numbers_follow (k : nat) (toks : list str) : bool :=
  match k with
  | O => true
  | S k' =>
      match toks with
      | t :: rest => negb (is_command t) && numbers_follow k' rest
      | [] => false
      end
  end.

(** Some command letter of [toks] is followed by fewer numbers than its
    operand count. *)
Fixpoint lacks_operands (toks : list str) : bool :=
  match toks with
  | [] => false
  | t :: rest =>
      (is_command t && negb (numbers_follow (operand_count t) rest))
      || lacks_operands rest
  end.

(** A number comes before any command letter: the first token is a number. *)
Definition number_before_command (toks : list str) : bool :=
  match toks with
  | t :: _ => negb (is_command t)
  | [] => false
  end.

(** The cubic Bezier formula of the specification,
    [P(t) = (1-t)^3 P0 + 3 (1-t)^2 t P1 + 3 (1-t) t^2 P2 + t^3 P3],
    on each coordinate. *)
Definition cubic (a0 a1 a2 a3 t : Q) : Q :=
  ((1-t)^3 * a0 + 3*(1-t)^2*t * a1 + 3*(1-t)*t^2 * a2 + t^3 * a3)%Q.

Definition cubic_point (p0 p1 p2 p3 : point) (t : Q) : point :=
  (cubic (fst p0) (fst p1) (fst p2) (fst p3) t,
   cubic (snd p0) (snd p1) (snd p2) (snd p3) t).

(** The third coordinate of a vertex. *)
Definition z_of (v : vertex) : Q := snd v.

(** The triangle of the fan at index [i]. *)
Definition fan_triangle (i : nat) : triangle := (0, i, i + 1).

(** The indices of a triangle are all below [n]. *)
Definition indices_below (n : nat) (t : triangle) : Prop :=
  let '(a, b, c) := t in a < n /\ b < n /\ c < n.

(** A character a number can start with. *)
Definition number_start (c : ascii) : bool := is_digit c || char_in c (chars "+-.").

(** A string that is empty or starts with [e] or [E]. *)
Definition exponent_or_end (s : str) : Prop :=
  match s with
  | [] => True
  | c :: _ => char_in c (chars "eE") = true
  end.

(** A token the second alternative of the pattern accepts. *)
Definition number_token (t : str) : Prop := Re.matches number_pattern t.

(** What the tokenizer can give: a command letter or a number. *)
Definition token_ok (t : str) : Prop := is_command t = true \/ number_token t.

(** A control point of a cubic command as the parser uses it: as written
    for [C], moved by the current point for [c]. *)
Definition absolute (relative : bool) (current p : point) : point :=
  if relative then ((fst p + fst current)%Q, (snd p + snd current)%Q) else p.

(** No character of the string is a command letter. *)
Definition no_command_letter (s : str) : bool :=
  forallb (fun c => negb (char_in c (chars "MLHVZCmlhvzc"))) s.

(** The vertex of a polygon point at height [z]. *)
Definition at_height (z : Q) (p : point) : vertex := (fst p, snd p, z).

(** A triangle of block-local offsets as a face of the output: the block
    starts at [start] in the vertex buffer, and the output counts from 1. *)
Definition at_offset (start : nat) (t : triangle) : triangle :=
  let '(a, b, c) := t in (start + a + 1, start + b + 1, start + c + 1).

(** [(a, b, c)] with its last two indices swapped. *)
Definition swap_last_two (t : triangle) : triangle :=
  let '(a, b, c) := t in (a, c, b).

(** The two wall triangles of the boundary edge [i -> (i+1) mod n], as
    block-local offsets: the front block is [0 .. n-1], the back block
    [n .. 2n-1]. *)
Definition wall (n i : nat) : list triangle :=
  let next_i := (i + 1) mod n in
  [(i, n + i, n + next_i); (i, n + next_i, next_i)].

Definition walls (n : nat) : list triangle := flat_map (wall n) (seq 0 n).

(** The cap faces of a polygon whose vertex block starts at [start]: the
    front cap, then the back cap. *)
Definition cap_faces (start : nat) (pts : list point) : list triangle :=
  map (at_offset start) (triangulate_polygon_earclip pts)
  ++ map (at_offset (start + length pts))
         (map swap_last_two (triangulate_polygon_earclip pts)).

(** Its side-wall faces. *)
Definition side_faces (start : nat) (pts : list point) : list triangle :=
  map (at_offset start) (walls (length pts)).

(** What a step added to a buffer that held [before] entries. *)
Definition added {A : Type} (before : nat) (buffer : list A) : list A :=
  skipn before buffer.

(* ------------------------------------------------------------------ *)
(** ** Further notions *)

(** No class and no literal of the regex accepts [c]. *)
Fixpoint avoids (r : Re.regex) (c : ascii) : bool :=
  match r with
  | Re.Chr a => negb (Ascii.eqb a c)
  | Re.Cls cl => negb (Re.in_class cl c)
  | Re.Seq r1 r2 => avoids r1 c && avoids r2 c
  | Re.Alt r1 r2 => avoids r1 c && avoids r2 c
  | Re.Opt r1 => avoids r1 c
  | Re.Star cl => negb (Re.in_class cl c)
  | Re.Plus cl => negb (Re.in_class cl c)
  end.

(** A character that no token can hold: a blank, a comma, any character the
    pattern of line 28 does not name. *)
Definition separator (c : ascii) : bool := avoids token_pattern c.

(** One of the twelve command letters. *)
Definition command_letter (c : ascii) : bool := char_in c (chars "MLHVZCmlhvzc").

(** The exception of a command whose [k] operands are not all there in the
    tokens [rest] after it: [IndexError] when the tokens end before a
    command letter comes, [ValueError] when a command letter stands among
    the first [k]. *)
Definition lack_kind (k : nat) (rest : list str) : exn :=
  if forallb (fun t => negb (is_command t)) (firstn k rest)
  then IndexError else ValueError.

(** The exception of the first command letter that lacks operands, if any. *)
Fixpoint failure_of (toks : list str) : option exn :=
  match toks with
  | [] => None
  | t :: rest =>
      if is_command t && negb (numbers_follow (operand_count t) rest)
      then Some (lack_kind (operand_count t) rest)
      else failure_of rest
  end.

(** A face whose three indices name vertices of a buffer of [nv] vertices,
    counted from 1 as the output file counts them. *)
Definition face_in_range (nv : nat) (f : triangle) : Prop :=
  let '(a, b, c) := f in
  (1 <= a <= nv) /\ (1 <= b <= nv) /\ (1 <= c <= nv).

(** Every face of the mesh names vertices of the mesh. *)
Definition mesh_ok (m : mesh) : Prop :=
  Forall (face_in_range (length (vertices m))) (faces m).

(** A path element that the run extrudes: its [d] attribute is there, is not
    empty and parses to three points or more. *)
Definition is_polygon (path_d : option string) : bool :=
  match path_d with
  | None => false
  | Some EmptyString => false
  | Some d =>
      match parse_svg_path_robust d with
      | Return points => 3 <=? length points
      | _ => false
      end
  end.

(** The index [k] is one of the three of the triangle. *)
Definition uses (t : triangle) (k : nat) : Prop :=
  let '(a, b, c) := t in a = k \/ b = k \/ c = k.

(** The points a command appends each time it runs: one for Move, Line,
    Horizontal and Vertical, five for Cubic, none for Close; a number
    appends none. *)
Definition drawn (t : str) : nat :=
  match t with
  | [c] =>
      if char_in c (chars "MmLlHhVv") then 1
      else if char_in c (chars "Cc") then 5
      else 0
  | _ => 0
  end.

(** The points a command can append besides: one for Close. *)
Definition closing (t : str) : nat :=
  match t with
  | [c] => if char_in c (chars "Zz") then 1 else 0
  | _ => 0
  end.

(** The sum of [f] over the tokens. *)
Definition total (f : str -> nat) (toks : list str) : nat :=
  list_sum (map f toks).

(** A face with every index moved up by [k]. *)
Definition shift (k : nat) (t : triangle) : triangle :=
  let '(a, b, c) := t in (a + k, b + k, c + k).

(** The mesh [m] followed by the mesh [m0], whose faces count their vertices
    after those of [m]. *)
Definition merge (m m0 : mesh) : mesh :=
  mkMesh (vertices m ++ vertices m0)
         (faces m ++ map (shift (length (vertices m))) (faces m0)).

(* ================================================================== *)
(** * Properties *)

(* ------------------------------------------------------------------ *)
(** ** The tokenizer and [float] on samples *)

Example tokenize_square :
  map string_of_list_ascii (tokenize (chars "M0,0 L10,0 L10,10 L0,10 Z"))
  = ["M"; "0"; "0"; "L"; "10"; "0"; "L"; "10"; "10"; "L"; "0"; "10"; "Z"]%string.
Proof. reflexivity. Qed.

Example tokenize_numbers_backtrack :
  map string_of_list_ascii
      (tokenize (chars "M-1.5e3.7-.5+12.e 5.x1e+z--3 1e5e6"))
  = ["M"; "-1.5e3"; ".7"; "-.5"; "+12"; "5"; "1"; "z"; "-3"; "1e5"; "6"]%string.
Proof. reflexivity. Qed.

Example tokenize_points :
  map string_of_list_ascii (tokenize (chars "1.2.3 ..5 007.e5 1E+5e +-+5"))
  = ["1.2"; ".3"; ".5"; "007"; "5"; "1E+5"; "+5"]%string.
Proof. reflexivity. Qed.

Example float_samples :
  map (fun s => float (chars s)) ["-1.5e3"; ".7"; "+12"; "007"; "2e-1"; "L"]%string
  = [Return (-1500 # 1); Return (7 # 10); Return (12 # 1); Return (7 # 1);
     Return (2 # 10); Raise ValueError]%Q.
Proof. reflexivity. Qed.

(* ------------------------------------------------------------------ *)
(** ** Loops that append *)

Section AppendLoops.
Context {A B : Type}.

Lemma fold_left_append (f : A -> B) (l : list A) (acc : list B) :
  fold_left (fun acc x => acc ++ [f x]) l acc = acc ++ map f l.
Proof.
  revert acc; induction l as [|x l IH]; intros acc; simpl.
  - now rewrite app_nil_r.
  - now rewrite IH, <- app_assoc.
Qed.

Lemma fold_left_append2 (f g : A -> B) (l : list A) (acc : list B) :
  fold_left (fun acc x => (acc ++ [f x]) ++ [g x]) l acc
  = acc ++ flat_map (fun x => [f x; g x]) l.
Proof.
  revert acc; induction l as [|x l IH]; intros acc; simpl.
  - now rewrite app_nil_r.
  - now rewrite IH, <- !app_assoc.
Qed.

Lemma length_flat_map_pair (f g : A -> B) (l : list A) :
  length (flat_map (fun x => [f x; g x]) l) = 2 * length l.
Proof. induction l as [|x l IH]; simpl; [reflexivity | rewrite IH; lia]. Qed.
End AppendLoops.

Lemma Forall_skipn {A : Type} (P : A -> Prop) (n : nat) (l : list A) :
  Forall P l -> Forall P (skipn n l).
Proof.
  intros H. rewrite <- (firstn_skipn n l) in H.
  apply Forall_app in H. apply H.
Qed.

Lemma range_0 (n : nat) : range 0 n = seq 0 n.
Proof. unfold range; now rewrite Nat.sub_0_r. Qed.

(* ------------------------------------------------------------------ *)
(** ** The triangulator *)

Lemma triangulate_closed_form {A : Type} (points : list A) :
  triangulate_polygon_earclip points
  = if length points <? 3 then []
    else map fan_triangle (seq 1 (length points - 2)).
Proof.
  unfold triangulate_polygon_earclip.
  destruct (length points <? 3) eqn:E; [reflexivity|].
  rewrite (fold_left_append fan_triangle); simpl.
  unfold range. do 2 f_equal. lia.
Qed.

Lemma triangulate_length {A : Type} (points : list A) :
  length (triangulate_polygon_earclip points) = length points - 2.
Proof.
  rewrite triangulate_closed_form.
  destruct (length points <? 3) eqn:E.
  - apply Nat.ltb_lt in E. simpl. lia.
  - now rewrite length_map, length_seq.
Qed.

(** C3: fewer than three points give no triangle; [n >= 3] points give the
    triangles [(0, i, i+1)] for [i = 1 .. n-2], in that order; a square gives
    [(0,1,2)] and [(0,2,3)]. *)
Theorem triangulate_is_fan :
  forall (A : Type) (points : list A),
    (length points < 3 -> triangulate_polygon_earclip points = []) /\
    (3 <= length points ->
     triangulate_polygon_earclip points
     = map (fun i => (0, i, i + 1)) (seq 1 (length points - 2))) /\
    (forall a b c d : A,
       triangulate_polygon_earclip [a; b; c; d] = [(0, 1, 2); (0, 2, 3)]).
Proof.
  intros A points. split; [| split].
  - intros H. rewrite triangulate_closed_form.
    apply Nat.ltb_lt in H. now rewrite H.
  - intros H. rewrite triangulate_closed_form.
    apply Nat.ltb_ge in H. now rewrite H.
  - reflexivity.
Qed.

Lemma triangulate_is_fan_witness :
  triangulate_polygon_earclip [(0, 0); (4, 0)]%Q = [] /\
  triangulate_polygon_earclip [(0, 0); (4, 0); (4, 4); (2, 6); (0, 4)]%Q
  = [(0, 1, 2); (0, 2, 3); (0, 3, 4)] /\
  triangulate_polygon_earclip [(0, 0); (4, 0); (4, 4); (0, 4)]%Q
  = [(0, 1, 2); (0, 2, 3)].
Proof.
  split; [| split].
  - apply (proj1 (triangulate_is_fan point [(0, 0); (4, 0)]%Q)).
    simpl. lia.
  - apply (proj1 (proj2 (triangulate_is_fan point
                           [(0, 0); (4, 0); (4, 4); (2, 6); (0, 4)]%Q))).
    simpl. lia.
  - apply (proj2 (proj2 (triangulate_is_fan point []))).
Defined.

(** C10: [n] points give [max(0, n-2)] triangles, and every index of every
    triangle is between [0] and [n-1]. *)
Theorem triangulate_count_and_range :
  forall (A : Type) (points : list A),
    Z.of_nat (length (triangulate_polygon_earclip points))
    = Z.max 0 (Z.of_nat (length points) - 2) /\
    Forall (indices_below (length points)) (triangulate_polygon_earclip points).
Proof.
  intros A points. split.
  - rewrite triangulate_length. lia.
  - rewrite triangulate_closed_form.
    destruct (length points <? 3) eqn:E; [constructor|].
    apply Nat.ltb_ge in E.
    apply Forall_forall. intros t Ht.
    apply in_map_iff in Ht. destruct Ht as (k & <- & Hk).
    apply in_seq in Hk. unfold fan_triangle, indices_below. lia.
Qed.

(* ------------------------------------------------------------------ *)
(** ** The extrusion step *)

Lemma flat_map_map {A B C : Type} (f : A -> list B) (g : B -> C) (l : list A) :
  map g (flat_map f l) = flat_map (fun x => map g (f x)) l.
Proof.
  induction l as [|x l IH]; simpl; [reflexivity|].
  now rewrite map_app, IH.
Qed.

Lemma walls_length (n : nat) : length (walls n) = 2 * n.
Proof.
  unfold walls, wall.
  rewrite (length_flat_map_pair
             (fun i => (i, n + i, n + (i + 1) mod n))
             (fun i => (i, n + (i + 1) mod n, (i + 1) mod n))).
  now rewrite length_seq.
Qed.

(** The buffers after the step, in closed form. *)
Lemma extrude_closed_form (depth : Q) (pts : list point) (m : mesh) :
  extrude depth pts m
  = mkMesh
      (vertices m ++ map (at_height (depth / 2)) pts
                  ++ map (at_height (- depth / 2)) pts)
      (faces m
       ++ map (at_offset (length (vertices m))) (triangulate_polygon_earclip pts)
       ++ map (at_offset (length (vertices m) + length pts))
              (map swap_last_two (triangulate_polygon_earclip pts))
       ++ map (at_offset (length (vertices m))) (walls (length pts))).
Proof.
  unfold extrude.
  set (fs := length (vertices m)).
  assert (Hv : forall z vs,
             fold_left (fun vs '(x, y) => vs ++ [(x, y, z)]) pts vs
             = vs ++ map (at_height z) pts).
  { intros z vs. rewrite <- fold_left_append.
    revert vs. induction pts as [|[x y] l IH]; intros vs; simpl; [reflexivity|].
    apply IH. }
  rewrite !Hv. rewrite length_app, length_map. fold fs.
  f_equal; [now rewrite <- app_assoc|].
  set (tris := triangulate_polygon_earclip pts).
  assert (Hf : forall start fcs,
             fold_left
               (fun fs0 '(t0, t1, t2) =>
                  fs0 ++ [(start + t0 + 1, start + t1 + 1, start + t2 + 1)])
               tris fcs
             = fcs ++ map (at_offset start) tris).
  { intros start fcs. rewrite <- fold_left_append.
    generalize tris. intros l. revert fcs.
    induction l as [|[[a b] c] l IH]; intros fcs; simpl; [reflexivity|].
    apply IH. }
  assert (Hb : forall start fcs,
             fold_left
               (fun fs0 '(t0, t1, t2) =>
                  fs0 ++ [(start + t0 + 1, start + t2 + 1, start + t1 + 1)])
               tris fcs
             = fcs ++ map (at_offset start) (map swap_last_two tris)).
  { intros start fcs. rewrite map_map, <- fold_left_append.
    generalize tris. intros l. revert fcs.
    induction l as [|[[a b] c] l IH]; intros fcs; simpl; [reflexivity|].
    apply IH. }
  rewrite Hf, Hb, range_0.
  rewrite (fold_left_append2
             (fun i => (fs + i + 1, fs + length pts + i + 1,
                        fs + length pts + (i + 1) mod length pts + 1))
             (fun i => (fs + i + 1,
                        fs + length pts + (i + 1) mod length pts + 1,
                        fs + (i + 1) mod length pts + 1))).
  rewrite <- !app_assoc. subst fs.
  apply (f_equal (app (faces m))).
  apply (f_equal (app _)). apply (f_equal (app _)).
  unfold walls. rewrite flat_map_map.
  apply flat_map_ext. intros i. unfold wall, triangle; simpl.
  repeat match goal with
         | |- @eq nat _ _ => lia
         | _ => f_equal
         end.
Qed.

Lemma added_app {A : Type} (old new : list A) : added (length old) (old ++ new) = new.
Proof.
  unfold added. rewrite skipn_app, skipn_all, Nat.sub_diag. reflexivity.
Qed.

Lemma cap_faces_length (start : nat) (pts : list point) :
  length (cap_faces start pts) = 2 * (length pts - 2).
Proof.
  unfold cap_faces. rewrite length_app, !length_map, triangulate_length. lia.
Qed.

Lemma side_faces_length (start : nat) (pts : list point) :
  length (side_faces start pts) = 2 * length pts.
Proof. unfold side_faces. now rewrite length_map, walls_length. Qed.

Lemma extrude_vertices (depth : Q) (pts : list point) (m : mesh) :
  vertices (extrude depth pts m)
  = vertices m ++ map (at_height (depth / 2)) pts
               ++ map (at_height (- depth / 2)) pts.
Proof. now rewrite extrude_closed_form. Qed.

Lemma extrude_faces (depth : Q) (pts : list point) (m : mesh) :
  faces (extrude depth pts m)
  = faces m ++ cap_faces (length (vertices m)) pts
            ++ side_faces (length (vertices m)) pts.
Proof.
  rewrite extrude_closed_form. unfold cap_faces, side_faces; simpl.
  now rewrite <- !app_assoc.
Qed.

(** C1: a polygon of [N >= 3] points and a positive depth add [2N] vertices,
    the [N] points at [z = depth/2] and then the [N] points at
    [z = -depth/2], both in input order, and [2(N-2) + 2N] faces, [2(N-2)]
    cap triangles and then [2N] side-wall triangles.  A polygon of four
    points with depth 2 adds 8 vertices and 12 faces, and each added vertex
    has [z = 1] or [z = -1]. *)
Theorem extrude_adds_2n_vertices_4n_minus_4_faces :
  forall (depth : Q) (pts : list point) (m : mesh),
    3 <= length pts ->
    (0 < depth)%Q ->
    added (length (vertices m)) (vertices (extrude depth pts m))
    = map (at_height (depth / 2)) pts ++ map (at_height (- depth / 2)) pts /\
    length (added (length (vertices m)) (vertices (extrude depth pts m)))
    = 2 * length pts /\
    added (length (faces m)) (faces (extrude depth pts m))
    = cap_faces (length (vertices m)) pts ++ side_faces (length (vertices m)) pts /\
    length (cap_faces (length (vertices m)) pts) = 2 * (length pts - 2) /\
    length (side_faces (length (vertices m)) pts) = 2 * length pts /\
    length (added (length (faces m)) (faces (extrude depth pts m)))
    = 2 * (length pts - 2) + 2 * length pts /\
    (firstn (length (vertices m)) (vertices (extrude depth pts m)) = vertices m /\
     firstn (length (faces m)) (faces (extrude depth pts m)) = faces m) /\
    (forall a b c d : point,
       length (added (length (vertices m)) (vertices (extrude 2 [a; b; c; d] m))) = 8 /\
       length (added (length (faces m)) (faces (extrude 2 [a; b; c; d] m))) = 12 /\
       Forall (fun v => (z_of v == 1)%Q \/ (z_of v == -1)%Q)
              (added (length (vertices m)) (vertices (extrude 2 [a; b; c; d] m)))).
Proof.
  intros depth pts m HN Hd.
  rewrite extrude_vertices, extrude_faces, !added_app.
  rewrite !length_app, !length_map, cap_faces_length, side_faces_length.
  repeat split; try reflexivity; try lia.
  - now rewrite firstn_app, firstn_all, Nat.sub_diag, app_nil_r.
  - now rewrite firstn_app, firstn_all, Nat.sub_diag, app_nil_r.
  - now rewrite extrude_vertices, added_app.
  - now rewrite extrude_faces, added_app.
  - rewrite extrude_vertices, added_app. simpl.
    repeat constructor; unfold z_of; simpl; (left; reflexivity) || (right; reflexivity).
Qed.

Lemma extrude_adds_2n_vertices_4n_minus_4_faces_witness :
  length (added 0 (vertices (extrude 2 [(0, 0); (4, 0); (4, -4); (0, -4)]%Q
                                     (mkMesh [] [])))) = 8 /\
  length (added 0 (faces (extrude 2 [(0, 0); (4, 0); (4, -4); (0, -4)]%Q
                                  (mkMesh [] [])))) = 12.
Proof.
  destruct (extrude_adds_2n_vertices_4n_minus_4_faces
              2 [(0, 0); (4, 0); (4, -4); (0, -4)]%Q (mkMesh [] []))
    as (_ & Hv & _ & _ & _ & Hf & _).
  - simpl. lia.
  - reflexivity.
  - split; [exact Hv | exact Hf].
Defined.

(** C5: the back cap is the front cap with the last two indices of every
    triangle swapped: the faces a polygon adds are its triangles [(a, b, c)]
    at the offsets of the front block, then the triangles [(a, c, b)] at the
    offsets of the back block, then the walls.  For a square the first
    triangle is [(0, 1, 2)] in front and [(0, 2, 1)] at the back. *)
Theorem back_cap_swaps_last_two :
  forall (depth : Q) (pts : list point) (m : mesh),
    added (length (faces m)) (faces (extrude depth pts m))
    = map (at_offset (length (vertices m))) (triangulate_polygon_earclip pts)
      ++ map (at_offset (length (vertices m) + length pts))
             (map swap_last_two (triangulate_polygon_earclip pts))
      ++ side_faces (length (vertices m)) pts /\
    (forall a b c d : point,
       nth_error (triangulate_polygon_earclip [a; b; c; d]) 0 = Some (0, 1, 2) /\
       nth_error (map swap_last_two (triangulate_polygon_earclip [a; b; c; d])) 0
       = Some (0, 2, 1)).
Proof.
  intros depth pts m. split.
  - rewrite extrude_faces, added_app. unfold cap_faces.
    now rewrite <- app_assoc.
  - intros a b c d. split; reflexivity.
Qed.

(* ------------------------------------------------------------------ *)
(** ** The loop over the paths *)

Lemma for_paths_raise (scale depth : Q) (paths : list (option string)) (e : exn) :
  fold_left (fun acc path_d => m' <- acc ;; path_turn scale depth path_d m')
            paths (Raise e) = Raise e.
Proof. induction paths as [|p l IH]; simpl; [reflexivity | exact IH]. Qed.

Lemma for_paths_out_of_budget (scale depth : Q) (paths : list (option string)) :
  fold_left (fun acc path_d => m' <- acc ;; path_turn scale depth path_d m')
            paths OutOfBudget = OutOfBudget.
Proof. induction paths as [|p l IH]; simpl; [reflexivity | exact IH]. Qed.

Lemma for_paths_cons (scale depth : Q) (p : option string)
      (paths : list (option string)) (m : mesh) :
  for_paths scale depth (p :: paths) m
  = m' <- path_turn scale depth p m ;; for_paths scale depth paths m'.
Proof.
  unfold for_paths; simpl.
  destruct (path_turn scale depth p m); simpl.
  - reflexivity.
  - apply for_paths_raise.
  - apply for_paths_out_of_budget.
Qed.

Lemma for_paths_app (scale depth : Q) (l1 l2 : list (option string)) (m : mesh) :
  for_paths scale depth (l1 ++ l2) m
  = m' <- for_paths scale depth l1 m ;; for_paths scale depth l2 m'.
Proof.
  revert m; induction l1 as [|p l1 IH]; intros m.
  - reflexivity.
  - simpl app. rewrite !for_paths_cons.
    destruct (path_turn scale depth p m); simpl; [apply IH | reflexivity..].
Qed.

(** C8: a path whose string parses to fewer than three points leaves the
    buffers as they are, and the run goes on: with or without that path the
    run gives the same outcome. *)
Theorem short_path_is_skipped :
  forall (scale depth : Q) (d : string) (pts : list point),
    parse_svg_path_robust d = Return pts ->
    length pts < 3 ->
    (forall m : mesh, path_turn scale depth (Some d) m = Return m) /\
    (forall (before after : list (option string)) (m : mesh),
       for_paths scale depth (before ++ Some d :: after) m
       = for_paths scale depth (before ++ after) m) /\
    (forall before after : list (option string),
       svg_to_obj scale depth (before ++ Some d :: after)
       = svg_to_obj scale depth (before ++ after)).
Proof.
  intros scale depth d pts Hp Hlen.
  assert (Hturn : forall m, path_turn scale depth (Some d) m = Return m).
  { intros m. unfold path_turn. destruct d as [|c d']; [reflexivity|].
    rewrite Hp; simpl.
    apply Nat.ltb_lt in Hlen. now rewrite Hlen. }
  assert (Hrun : forall before after m,
             for_paths scale depth (before ++ Some d :: after) m
             = for_paths scale depth (before ++ after) m).
  { intros before after m. rewrite !for_paths_app.
    destruct (for_paths scale depth before m) as [m1| |]; simpl; try reflexivity.
    now rewrite for_paths_cons, Hturn. }
  split; [exact Hturn | split; [exact Hrun |]].
  intros before after. apply Hrun.
Qed.

Lemma short_path_is_skipped_witness :
  svg_to_obj 1 2 [Some "M0,0 L4,0 L4,4 L0,4"; Some "M0,0 L4,0"; Some "M9,9 L5,9 L5,5"]%string
  = svg_to_obj 1 2 [Some "M0,0 L4,0 L4,4 L0,4"; Some "M9,9 L5,9 L5,5"]%string.
Proof.
  apply (proj2 (proj2 (short_path_is_skipped 1 2 "M0,0 L4,0" [(0, 0); (4, 0)]%Q
                         eq_refl ltac:(simpl; lia)))
           [Some "M0,0 L4,0 L4,4 L0,4"%string] [Some "M9,9 L5,9 L5,5"%string]).
Defined.

(* ------------------------------------------------------------------ *)
(** ** The matcher accepts only what the pattern describes *)

Section MatcherSound.
Context {A : Type}.

Lemma repeat_class_sound (cl : Re.class) (s : str) (k : str -> option A) (x : A) :
  Re.repeat_class cl s k = Some x ->
  exists s1 s2,
    s = s1 ++ s2 /\ forallb (Re.in_class cl) s1 = true /\ k s2 = Some x.
Proof.
  induction s as [|c s IH]; simpl; intros H.
  - exists [], []. auto.
  - destruct (Re.in_class cl c) eqn:Hc.
    + destruct (Re.repeat_class cl s k) as [y|] eqn:Hr; simpl in H.
      * injection H as ->. destruct (IH eq_refl) as (s1 & s2 & -> & H1 & H2).
        exists (c :: s1), s2. simpl. rewrite Hc. auto.
      * exists [], (c :: s). auto.
    + exists [], (c :: s). auto.
Qed.

Lemma rmatch_sound (r : Re.regex) :
  forall (s : str) (k : str -> option A) (x : A),
    Re.rmatch r s k = Some x ->
    exists s1 s2, s = s1 ++ s2 /\ Re.matches r s1 /\ k s2 = Some x.
Proof.
  induction r as [a|cl|r1 IH1 r2 IH2|r1 IH1 r2 IH2|r1 IH1|cl|cl];
    intros s k x H; simpl in H.
  - destruct s as [|c s]; [discriminate|].
    destruct (Ascii.eqb a c) eqn:E; [|discriminate].
    apply Ascii.eqb_eq in E; subst c.
    exists [a], s. repeat split; [constructor | exact H].
  - destruct s as [|c s]; [discriminate|].
    destruct (Re.in_class cl c) eqn:E; [|discriminate].
    exists [c], s. repeat split; [now constructor | exact H].
  - apply IH1 in H. destruct H as (s1 & s' & -> & M1 & H).
    apply IH2 in H. destruct H as (s2 & s3 & -> & M2 & H).
    exists (s1 ++ s2), s3. rewrite app_assoc.
    repeat split; [now constructor | exact H].
  - destruct (Re.rmatch r1 s k) as [y|] eqn:E; simpl in H.
    + injection H as ->. apply IH1 in E. destruct E as (s1 & s2 & -> & M & E).
      exists s1, s2. repeat split; [now apply Re.m_alt_l | exact E].
    + apply IH2 in H. destruct H as (s1 & s2 & -> & M & H).
      exists s1, s2. repeat split; [now apply Re.m_alt_r | exact H].
  - destruct (Re.rmatch r1 s k) as [y|] eqn:E; simpl in H.
    + injection H as ->. apply IH1 in E. destruct E as (s1 & s2 & -> & M & E).
      exists s1, s2. repeat split; [now apply Re.m_opt_some | exact E].
    + exists [], s. repeat split; [apply Re.m_opt_none | exact H].
  - apply repeat_class_sound in H. destruct H as (s1 & s2 & -> & F & H).
    exists s1, s2. repeat split; [now constructor | exact H].
  - destruct s as [|c s]; [discriminate|].
    destruct (Re.in_class cl c) eqn:E; [|discriminate].
    apply repeat_class_sound in H. destruct H as (s1 & s2 & -> & F & H).
    exists (c :: s1), s2. repeat split; [now constructor | exact H].
Qed.
End MatcherSound.

Lemma match_here_sound (r : Re.regex) (s rest : str) :
  Re.match_here r s = Some rest ->
  exists tok, s = tok ++ rest /\ Re.matches r tok.
Proof.
  unfold Re.match_here. intros H. apply rmatch_sound in H.
  destruct H as (s1 & s2 & -> & M & H). injection H as ->.
  now exists s1.
Qed.

Lemma findall_from_cons (r : Re.regex) (c : ascii) (s : str) (inside : nat) :
  Re.findall_from r (c :: s) inside
  = match inside with
    | S n => Re.findall_from r s n
    | O =>
        match Re.match_here r (c :: s) with
        | Some rest =>
            match length (c :: s) - length rest with
            | O => Re.findall_from r s 0
            | S n =>
                firstn (length (c :: s) - length rest) (c :: s)
                :: Re.findall_from r s n
            end
        | None => Re.findall_from r s 0
        end
    end.
Proof. reflexivity. Qed.

(** Every token of [findall] is a match of the pattern, made of characters
    of the string. *)
Lemma findall_from_tokens (r : Re.regex) :
  forall (s : str) (inside : nat),
    Forall (fun t => Re.matches r t /\ incl t s) (Re.findall_from r s inside).
Proof.
  induction s as [|c s IH]; intros inside; [constructor|].
  rewrite findall_from_cons.
  assert (Hw : forall n, Forall (fun t => Re.matches r t /\ incl t (c :: s))
                                (Re.findall_from r s n)).
  { intros n. eapply Forall_impl; [|apply IH].
    intros t [M I]. split; [exact M|]. now apply incl_tl. }
  destruct inside as [|n]; [|apply Hw].
  destruct (Re.match_here r (c :: s)) as [rest|] eqn:E; [|apply Hw].
  apply match_here_sound in E. destruct E as (tok & E & M).
  destruct (length (c :: s) - length rest) as [|n] eqn:L; [apply Hw|].
  constructor; [|apply Hw].
  rewrite <- L, E, length_app, Nat.add_sub, firstn_app, firstn_all, Nat.sub_diag.
  simpl. rewrite app_nil_r. split; [exact M|].
  intros a Ha. apply in_or_app. now left.
Qed.

Lemma tokenize_tokens (s : str) :
  Forall (fun t => Re.matches token_pattern t /\ incl t s) (tokenize s).
Proof. apply findall_from_tokens. Qed.

(* ------------------------------------------------------------------ *)
(** ** Number tokens convert *)

Ltac inv H := inversion H; subst; clear H.

Lemma digit_class (c : ascii) : Re.in_class digit c = is_digit c.
Proof. reflexivity. Qed.

Lemma forallb_digit_class (s : str) :
  forallb (Re.in_class digit) s = forallb is_digit s.
Proof. reflexivity. Qed.

Lemma span_digits (d rest : str) :
  forallb is_digit d = true ->
  match rest with [] => True | c :: _ => is_digit c = false end ->
  span is_digit (d ++ rest) = (d, rest).
Proof.
  intros Hd Hr. induction d as [|c d IH]; simpl in *.
  - destruct rest as [|c r]; [reflexivity|]. simpl. now rewrite Hr.
  - apply andb_prop in Hd. destruct Hd as [Hc Hd].
    rewrite Hc, (IH Hd). reflexivity.
Qed.

Lemma exponent_or_end_not_digit (s : str) :
  exponent_or_end s ->
  match s with [] => True | c :: _ => is_digit c = false end.
Proof.
  destruct s as [|c s]; simpl; [trivial|]. intros H.
  unfold char_in in H; simpl in H.
  destruct (Ascii.eqb_spec c "e") as [->|]; [reflexivity|].
  destruct (Ascii.eqb_spec c "E") as [->|]; [reflexivity|discriminate].
Qed.

Lemma exponent_or_end_not_point (c : ascii) (s : str) :
  exponent_or_end (c :: s) -> Ascii.eqb c "." = false.
Proof.
  simpl. unfold char_in; simpl. intros H.
  destruct (Ascii.eqb_spec c "e") as [->|]; [reflexivity|].
  destruct (Ascii.eqb_spec c "E") as [->|]; [reflexivity|discriminate].
Qed.

Lemma seq_inv (r1 r2 : Re.regex) (s : str) :
  Re.matches (Re.Seq r1 r2) s ->
  exists s1 s2, s = s1 ++ s2 /\ Re.matches r1 s1 /\ Re.matches r2 s2.
Proof. intros H. inv H. eauto. Qed.

Lemma opt_point_inv (s : str) :
  Re.matches (Re.Opt (Re.Chr ".")) s -> s = [] \/ s = ["."%char].
Proof.
  intros H. inv H; [now left|]. right.
  match goal with H : Re.matches (Re.Chr _) _ |- _ => now inv H end.
Qed.

Lemma opt_sign_inv (s : str) :
  Re.matches (Re.Opt sign) s -> s = [] \/ s = ["-"%char] \/ s = ["+"%char].
Proof.
  intros H. inv H; [now left|]. right.
  match goal with H : Re.matches sign _ |- _ => inv H end.
  match goal with H : Re.in_class _ ?c = true |- _ =>
    unfold Re.in_class, char_in in H; simpl in H;
    destruct (Ascii.eqb_spec c "-") as [E|E]; [subst; now left|];
    destruct (Ascii.eqb_spec c "+") as [E'|E']; [subst; now right|discriminate]
  end.
Qed.

Lemma plus_digit_inv (s : str) :
  Re.matches (Re.Plus digit) s ->
  exists c d, s = c :: d /\ is_digit c = true /\ forallb is_digit d = true.
Proof. intros H. inv H. now exists c, s0. Qed.

Lemma take_sign_number_start (c : ascii) (s : str) :
  is_digit c = true \/ c = "."%char -> take_sign (c :: s) = (false, c :: s).
Proof.
  intros H. unfold take_sign.
  destruct (Ascii.eqb_spec c "-") as [->|];
    [destruct H as [H|H]; discriminate|].
  destruct (Ascii.eqb_spec c "+") as [->|];
    [destruct H as [H|H]; discriminate|].
  reflexivity.
Qed.

(** The digits, the optional point and the digits of a number token. *)
Lemma mantissa_digits (d1 dot d2 rest : str) (c : ascii) :
  forallb is_digit d1 = true ->
  dot = [] \/ dot = ["."%char] ->
  is_digit c = true ->
  forallb is_digit d2 = true ->
  exponent_or_end rest ->
  exists ip fp,
    mantissa (d1 ++ dot ++ (c :: d2) ++ rest) = (ip, fp, rest) /\ ip ++ fp <> [].
Proof.
  intros H1 Hdot Hc H2 Hrest.
  pose proof (exponent_or_end_not_digit rest Hrest) as Hnd.
  unfold mantissa. destruct Hdot as [-> | ->].
  - exists (d1 ++ c :: d2), [].
    change ([] ++ (c :: d2) ++ rest) with ((c :: d2) ++ rest).
    rewrite (app_assoc d1 (c :: d2) rest).
    rewrite (span_digits (d1 ++ c :: d2) rest).
    + split.
      * destruct rest as [|e r]; [reflexivity|].
        now rewrite (exponent_or_end_not_point e r Hrest).
      * rewrite app_nil_r. now destruct d1.
    + rewrite forallb_app; simpl. now rewrite H1, Hc, H2.
    + exact Hnd.
  - exists d1, (c :: d2).
    rewrite (span_digits d1); [|exact H1|reflexivity].
    simpl. rewrite Hc.
    change (c :: d2 ++ rest) with ((c :: d2) ++ rest) in *.
    rewrite (span_digits d2 rest H2 Hnd).
    split; [reflexivity | now destruct d1].
Qed.

Lemma exponent_part (s : str) :
  Re.matches (Re.Opt exponent_pattern) s ->
  exponent_or_end s /\ exists e, exponent s = Some e.
Proof.
  intros H. inv H; [split; [exact I | now exists 0%Z]|].
  match goal with H : Re.matches exponent_pattern _ |- _ => inv H end.
  match goal with H : Re.matches (Re.Cls _) _ |- _ => inv H end.
  match goal with H : Re.matches (Re.Seq _ _) _ |- _ => inv H end.
  match goal with H : Re.matches (Re.Plus _) _ |- _ =>
    apply plus_digit_inv in H; destruct H as (c' & d3 & -> & Hc' & Hd3) end.
  match goal with H : Re.in_class _ _ = true |- _ => rename H into He end.
  change (Re.in_class (Re.OneOf "eE") c) with (char_in c (chars "eE")) in He.
  split; [exact He|].
  unfold exponent. cbn [app]. rewrite He.
  assert (Hspan : span is_digit (c' :: d3) = (c' :: d3, [])).
  { rewrite <- (app_nil_r (c' :: d3)) at 1.
    apply span_digits; [simpl; now rewrite Hc', Hd3 | exact I]. }
  match goal with H : Re.matches (Re.Opt sign) _ |- _ =>
    apply opt_sign_inv in H; destruct H as [-> | [-> | ->]] end.
  - simpl app. rewrite (take_sign_number_start c' d3 (or_introl Hc')).
    cbv beta iota. rewrite Hspan. eauto.
  - change (take_sign (["-"%char] ++ c' :: d3)) with (true, c' :: d3).
    cbv beta iota. rewrite Hspan. eauto.
  - change (take_sign (["+"%char] ++ c' :: d3)) with (false, c' :: d3).
    cbv beta iota. rewrite Hspan. eauto.
Qed.

(** A number token decomposes into a sign and a body; the body starts with
    a digit or the point, and [float] reads it. *)
Lemma number_token_body (t : str) :
  number_token t ->
  exists sg c body,
    t = sg ++ c :: body /\
    (sg = [] \/ sg = ["-"%char] \/ sg = ["+"%char]) /\
    (is_digit c = true \/ c = "."%char) /\
    exists ip fp rest e,
      mantissa (c :: body) = (ip, fp, rest) /\ ip ++ fp <> [] /\
      exponent rest = Some e.
Proof.
  unfold number_token, number_pattern. intros H.
  apply seq_inv in H. destruct H as (sg & s1 & -> & Hsg & H).
  apply opt_sign_inv in Hsg.
  apply seq_inv in H. destruct H as (d1 & s2 & -> & Hd1 & H).
  inv Hd1. rename H1 into Hd1. rewrite forallb_digit_class in Hd1.
  apply seq_inv in H. destruct H as (dot & s3 & -> & Hdot & H).
  apply opt_point_inv in Hdot.
  apply seq_inv in H. destruct H as (ds & rest & -> & Hds & H).
  apply plus_digit_inv in Hds. destruct Hds as (c & d2 & -> & Hc & Hd2).
  apply exponent_part in H. destruct H as (Hrest & e & He).
  destruct (mantissa_digits d1 dot d2 rest c Hd1 Hdot Hc Hd2 Hrest)
    as (ip & fp & Hm & Hne).
  assert (Hhead : exists c0 body,
             d1 ++ dot ++ (c :: d2) ++ rest = c0 :: body /\
             (is_digit c0 = true \/ c0 = "."%char)).
  { destruct d1 as [|x d1].
    - destruct Hdot as [-> | ->]; simpl;
        eexists _, _; (split; [reflexivity|]); [now left | now right].
    - simpl in Hd1. apply andb_prop in Hd1. destruct Hd1 as [Hx _].
      simpl. eexists _, _; split; [reflexivity | now left]. }
  destruct Hhead as (c0 & body & Hbody & Hc0).
  exists sg, c0, body. rewrite <- Hbody.
  split; [reflexivity|]. split; [exact Hsg|]. split; [exact Hc0|].
  exists ip, fp, rest, e. auto.
Qed.

Lemma number_token_float (t : str) :
  number_token t -> exists q, float t = Return q.
Proof.
  intros H. apply number_token_body in H.
  destruct H as (sg & c & body & -> & Hsg & Hc & ip & fp & rest & e & Hm & Hne & He).
  assert (Hsign : exists neg, take_sign (sg ++ c :: body) = (neg, c :: body)).
  { destruct Hsg as [-> | [-> | ->]].
    - exists false. now apply take_sign_number_start.
    - now exists true.
    - now exists false. }
  destruct Hsign as (neg & Hsign).
  unfold float. rewrite Hsign, Hm, He.
  destruct (ip ++ fp) eqn:E; [contradiction|]. eauto.
Qed.

Lemma number_token_head (t : str) :
  number_token t -> exists c r, t = c :: r /\ number_start c = true.
Proof.
  intros H. apply number_token_body in H.
  destruct H as (sg & c & body & -> & Hsg & Hc & _).
  destruct Hsg as [-> | [-> | ->]]; simpl; eauto.
  exists c, body. split; [reflexivity|]. unfold number_start.
  destruct Hc as [-> | ->]; [reflexivity | apply orb_true_r].
Qed.

(* ------------------------------------------------------------------ *)
(** ** How the loop treats a token *)

Lemma number_start_dispatch (c : ascii) (r : str) :
  number_start c = true ->
  is_command (c :: r) = false /\
  str_in (c :: r) (chars "Mm") = false /\
  str_in (c :: r) (chars "Ll") = false /\
  str_in (c :: r) (chars "Hh") = false /\
  str_in (c :: r) (chars "Vv") = false /\
  str_in (c :: r) (chars "Cc") = false /\
  str_in (c :: r) (chars "Zz") = false.
Proof.
  intros H.
  destruct c as [b0 b1 b2 b3 b4 b5 b6 b7].
  destruct b0, b1, b2, b3, b4, b5, b6, b7; try discriminate H;
    (split; [destruct r; reflexivity | repeat split; reflexivity]).
Qed.

Lemma number_token_not_command (t : str) :
  number_token t -> is_command t = false.
Proof.
  intros H. apply number_token_head in H. destruct H as (c & r & -> & H).
  now apply number_start_dispatch.
Qed.

Lemma command_cases (t : str) :
  is_command t = true ->
  In t (map chars ["M"; "L"; "H"; "V"; "Z"; "C"; "m"; "l"; "h"; "v"; "z"; "c"]%string).
Proof.
  destruct t as [|c [|c' t]]; try discriminate.
  unfold is_command, char_in. intros H. apply existsb_exists in H.
  destruct H as (x & Hin & Hx). apply Ascii.eqb_eq in Hx. subst x.
  simpl in Hin. simpl.
  repeat (destruct Hin as [<- | Hin]; [auto 13|]). contradiction.
Qed.

Lemma command_float (t : str) : is_command t = true -> float t = Raise ValueError.
Proof.
  intros H. apply command_cases in H. simpl in H.
  repeat (destruct H as [<- | H]; [reflexivity|]). contradiction.
Qed.

Lemma matches_token_ok (t : str) : Re.matches token_pattern t -> token_ok t.
Proof.
  unfold token_ok, token_pattern. intros M.
  inv M; [left | now right].
  match goal with H : Re.matches command_pattern _ |- _ => inv H end.
  assumption.
Qed.

Lemma token_ok_tokenize (s : str) : Forall token_ok (tokenize s).
Proof.
  eapply Forall_impl; [|apply tokenize_tokens].
  intros t [M _]. now apply matches_token_ok.
Qed.

Lemma token_nonempty (t : str) : token_ok t -> t <> [].
Proof.
  intros [H | H] E; subst.
  - discriminate.
  - apply number_token_head in H. destruct H as (c & r & H & _). discriminate.
Qed.

(** A match of the pattern of line 28 is never empty, so [findall] takes a
    token wherever the pattern matches. *)
Lemma token_pattern_match_nonempty (s rest : str) :
  Re.match_here token_pattern s = Some rest -> length rest < length s.
Proof.
  intros H. apply match_here_sound in H. destruct H as (tok & -> & M).
  apply matches_token_ok, token_nonempty in M.
  rewrite length_app. destruct tok; [contradiction | simpl; lia].
Qed.

Lemma numbers_follow_less (k : nat) :
  forall rest, numbers_follow (S k) rest = true -> numbers_follow k rest = true.
Proof.
  induction k as [|k IH]; intros rest H; [reflexivity|].
  destruct rest as [|t r]; [discriminate|].
  simpl in *. apply andb_prop in H. destruct H as [Ht H].
  rewrite Ht. simpl. apply IH. exact H.
Qed.

Lemma float_item_cons (t : str) (rest : list str) (k : nat) :
  float_item (t :: rest) (S k) = float_item rest k.
Proof. reflexivity. Qed.

Lemma float_item_number (k : nat) :
  forall rest,
    Forall token_ok rest ->
    numbers_follow (S k) rest = true ->
    exists q, float_item rest k = Return q.
Proof.
  induction k as [|k IH]; intros rest Hok H;
    destruct rest as [|t r]; try discriminate;
    simpl in H; apply andb_prop in H; destruct H as [Ht H];
    inversion Hok as [|? ? Hokt Hokr]; subst.
  - destruct Hokt as [Hc | Hn]; [rewrite Hc in Ht; discriminate|].
    unfold float_item, item; simpl. now apply number_token_float.
  - rewrite float_item_cons. apply IH; assumption.
Qed.

Lemma float_item_missing (k : nat) :
  forall rest,
    Forall token_ok rest ->
    numbers_follow k rest = true ->
    numbers_follow (S k) rest = false ->
    exists e, float_item rest k = Raise e /\ (e = IndexError \/ e = ValueError).
Proof.
  induction k as [|k IH]; intros rest Hok Hk H.
  - destruct rest as [|t r]; [exists IndexError; auto|].
    simpl in H. rewrite andb_true_r in H. apply negb_false_iff in H.
    exists ValueError. unfold float_item, item; simpl.
    split; [now apply command_float | now right].
  - destruct rest as [|t r]; [discriminate|].
    inversion Hok as [|? ? Hokt Hokr]; subst.
    change (numbers_follow (S k) (t :: r))
      with (negb (is_command t) && numbers_follow k r) in Hk.
    change (numbers_follow (S (S k)) (t :: r))
      with (negb (is_command t) && numbers_follow (S k) r) in H.
    apply andb_prop in Hk. destruct Hk as [Ht Hk]. rewrite Ht in H.
    rewrite float_item_cons. apply IH; assumption.
Qed.

Lemma float_item_skipn (tokens : list str) (n k : nat) :
  float_item tokens (n + k) = float_item (skipn n tokens) k.
Proof. unfold float_item, item. now rewrite nth_error_skipn. Qed.

Lemma float_item_next (tokens : list str) (n : nat) :
  float_item tokens (n + 1) = float_item (skipn (S n) tokens) 0.
Proof. rewrite <- float_item_skipn. f_equal. lia. Qed.

Lemma float_item_after (tokens : list str) (n k : nat) :
  float_item tokens (n + 1 + k) = float_item (skipn (S n) tokens) k.
Proof. rewrite <- float_item_skipn. f_equal. lia. Qed.

(* ------------------------------------------------------------------ *)
(** ** The curve sampler *)

Lemma approximate_bezier_samples (p0 p1 p2 p3 : point) (n : nat) :
  approximate_bezier p0 p1 p2 p3 (S n)
  = Return (map (fun k => cubic_point p0 p1 p2 p3 (of_int k / of_int (S n))%Q)
                (seq 0 (S n + 1))).
Proof.
  unfold approximate_bezier. rewrite range_0.
  set (g := fun k => cubic_point p0 p1 p2 p3 (of_int k / of_int (S n))%Q).
  enough (H : forall l acc,
             fold_left
               (fun acc0 k =>
                  points <- acc0 ;;
                  t <- (if S n =? 0 then Raise ZeroDivisionError
                        else Return (of_int k / of_int (S n))%Q) ;;
                  Return (points ++ [g k]))
               l (Return acc)
             = Return (acc ++ map g l)) by apply (H _ []).
  induction l as [|k l IH]; intros acc; simpl.
  - now rewrite app_nil_r.
  - rewrite IH. now rewrite <- app_assoc.
Qed.

(* ------------------------------------------------------------------ *)
(** ** One turn of the parser's loop *)

Lemma numbers_follow_more (k d : nat) (rest : list str) :
  numbers_follow k rest = false -> numbers_follow (k + d) rest = false.
Proof.
  intros H. induction d as [|d IH].
  - now rewrite Nat.add_0_r.
  - rewrite Nat.add_succ_r.
    destruct (numbers_follow (S (k + d)) rest) eqn:E; [|reflexivity].
    apply numbers_follow_less in E. congruence.
Qed.

Lemma loop_body_number (tokens : list str) (st : locals) (t : str) :
  nth_error tokens (i st) = Some t ->
  number_token t ->
  loop_body tokens st
  = Return (mkLocals (points st) (current_x st) (current_y st)
                     (start_x st) (start_y st) (i st + 1)).
Proof.
  intros Ht Hn. unfold loop_body, item. rewrite Ht. cbn [bind].
  apply number_token_head in Hn. destruct Hn as (c & r & -> & Hc).
  destruct (number_start_dispatch c r Hc) as (_ & H1 & H2 & H3 & H4 & H5 & H6).
  now rewrite H1, H2, H3, H4, H5, H6.
Qed.

(** Reads the operands [k], [k+1], ... of the command one after the other:
    each is a number and the turn goes on, or it is missing and the turn
    raises. *)
Ltac read_operands rest Hok Hk k todo :=
  lazymatch todo with
  | O => rewrite ?Hk
  | S ?todo' =>
      let E := fresh "E" in
      destruct (numbers_follow (S k) rest) eqn:E;
      [ let q := fresh "q" in
        let Hq := fresh "Hq" in
        destruct (float_item_number k rest Hok E) as (q & Hq);
        rewrite Hq; cbn [bind];
        read_operands rest Hok E (S k) todo'
      | let e := fresh "e" in
        let He := fresh "He" in
        let Hc := fresh "Hc" in
        destruct (float_item_missing k rest Hok Hk E) as (e & He & Hc);
        rewrite He; cbn [bind];
        let Hn := fresh "Hn" in
        pose proof (numbers_follow_more (S k) todo' rest E) as Hn;
        cbn [Nat.add] in Hn; rewrite ?Hn;
        exists e; split; [reflexivity | exact Hc] ]
  end.

Lemma loop_body_command (tokens : list str) (st : locals) (cmd : str) :
  Forall token_ok tokens ->
  nth_error tokens (i st) = Some cmd ->
  is_command cmd = true ->
  if numbers_follow (operand_count cmd) (skipn (S (i st)) tokens)
  then exists st', loop_body tokens st = Return st' /\
                   i st' = i st + 1 + operand_count cmd
  else exists e, loop_body tokens st = Raise e /\
                 (e = IndexError \/ e = ValueError).
Proof.
  intros Hok Hcmd Hc.
  assert (Hrest : Forall token_ok (skipn (S (i st)) tokens)).
  { now apply Forall_skipn. }
  revert Hrest. generalize (eq_refl (skipn (S (i st)) tokens)).
  generalize (skipn (S (i st)) tokens) at 1 3 4 as rest.
  intros rest Erest Hrest.
  unfold loop_body, item. rewrite Hcmd. cbv zeta. cbn [bind].
  rewrite ?float_item_after, ?float_item_next, <- Erest.
  assert (H0 : numbers_follow 0 rest = true) by reflexivity.
  apply command_cases in Hc. simpl in Hc.
  repeat (destruct Hc as [<- | Hc]);
    try contradiction;
    cbn -[float_item approximate_bezier Qplus numbers_follow];
    [ read_operands rest Hrest H0 0 2
    | read_operands rest Hrest H0 0 2
    | read_operands rest Hrest H0 0 1
    | read_operands rest Hrest H0 0 1
    | idtac
    | read_operands rest Hrest H0 0 6
    | read_operands rest Hrest H0 0 2
    | read_operands rest Hrest H0 0 2
    | read_operands rest Hrest H0 0 1
    | read_operands rest Hrest H0 0 1
    | idtac
    | read_operands rest Hrest H0 0 6 ];
    rewrite ?approximate_bezier_samples; cbn [bind];
    (eexists; split; [reflexivity | cbn [i]; lia]).
Qed.

(* ------------------------------------------------------------------ *)
(** ** The parser's loop *)

Lemma while_loop_done (budget : nat) (tokens : list str) (st : locals) :
  (i st <? length tokens) = false -> while_loop budget tokens st = Return st.
Proof. intros H. destruct budget; simpl; now rewrite H. Qed.

Lemma while_loop_turn (budget : nat) (tokens : list str) (st : locals) :
  (i st <? length tokens) = true ->
  while_loop (S budget) tokens st
  = st' <- loop_body tokens st ;; while_loop budget tokens st'.
Proof. intros H. simpl. now rewrite H. Qed.

Lemma skipn_at {A : Type} (l : list A) (n : nat) (x : A) :
  nth_error l n = Some x -> skipn n l = x :: skipn (S n) l.
Proof.
  revert n; induction l as [|y l IH]; intros [|n] H; try discriminate.
  - now injection H as ->.
  - simpl in H. simpl. now apply IH.
Qed.

Lemma lacks_operands_skip (k : nat) :
  forall rest,
    numbers_follow k rest = true ->
    lacks_operands rest = lacks_operands (skipn k rest).
Proof.
  induction k as [|k IH]; intros rest H; [reflexivity|].
  destruct rest as [|t r]; [discriminate|].
  simpl in H. apply andb_prop in H. destruct H as [Ht H].
  apply negb_true_iff in Ht.
  simpl. rewrite Ht. simpl. now apply IH.
Qed.

(** The loop raises when some command letter ahead lacks operands, and
    otherwise leaves through its condition; the budget is not used up. *)
Lemma while_loop_decides (tokens : list str) :
  Forall token_ok tokens ->
  forall (budget : nat) (st : locals),
    length tokens - i st <= budget ->
    if lacks_operands (skipn (i st) tokens)
    then exists e, while_loop budget tokens st = Raise e /\
                   (e = IndexError \/ e = ValueError)
    else exists st', while_loop budget tokens st = Return st' /\
                     length tokens <= i st'.
Proof.
  intros Hok. induction budget as [|budget IH]; intros st Hb;
    destruct (i st <? length tokens) eqn:Hlt;
    try (apply Nat.ltb_lt in Hlt; lia);
    try (rewrite while_loop_done by exact Hlt;
         apply Nat.ltb_ge in Hlt; rewrite skipn_all2 by exact Hlt;
         exists st; split; [reflexivity | exact Hlt]).
  rewrite while_loop_turn by exact Hlt. apply Nat.ltb_lt in Hlt.
  destruct (nth_error tokens (i st)) as [cmd|] eqn:Hcmd;
    [|apply nth_error_None in Hcmd; lia].
  rewrite (skipn_at _ _ _ Hcmd). cbn [lacks_operands].
  assert (Hcmd_ok : token_ok cmd).
  { eapply Forall_forall; [exact Hok|]. eapply nth_error_In; exact Hcmd. }
  destruct Hcmd_ok as [Hc | Hn].
  - pose proof (loop_body_command tokens st cmd Hok Hcmd Hc) as Hturn.
    rewrite Hc.
    destruct (numbers_follow (operand_count cmd) (skipn (S (i st)) tokens)) eqn:Hnum.
    + destruct Hturn as (st' & -> & Hi). cbn [bind negb andb orb].
      rewrite (lacks_operands_skip _ _ Hnum), skipn_skipn.
      replace (operand_count cmd + S (i st)) with (i st') by lia.
      apply IH. lia.
    + destruct Hturn as (e & -> & He). cbn [bind negb andb orb]. eauto.
  - rewrite (loop_body_number tokens st cmd Hcmd Hn).
    rewrite (number_token_not_command cmd Hn). cbn [bind negb andb orb].
    specialize (IH (mkLocals (points st) (current_x st) (current_y st)
                             (start_x st) (start_y st) (i st + 1))).
    cbn [i] in IH. replace (i st + 1) with (S (i st)) in * by lia.
    apply IH. lia.
Qed.

(** [len(tokens)] turns are enough for the loop. *)
Lemma while_loop_budget (tokens : list str) :
  Forall token_ok tokens ->
  while_loop (length tokens) tokens (mkLocals [] 0 0 0 0 0) <> OutOfBudget.
Proof.
  intros Hok.
  pose proof (while_loop_decides tokens Hok (length tokens)
                (mkLocals [] 0 0 0 0 0)) as H.
  cbn [i] in H. specialize (H ltac:(lia)).
  destruct (lacks_operands (skipn 0 tokens)).
  - destruct H as (e & -> & _). discriminate.
  - destruct H as (st' & -> & _). discriminate.
Qed.

(** C2, as the code has it: [parse] raises exactly when some command letter
    is followed by fewer numbers than its operand count (2 for Move and Line,
    1 for Horizontal and Vertical, 6 for Cubic, 0 for Close), the exception
    being [IndexError] or [ValueError]; in every other case it returns a
    polyline.  Numbers where a command letter is expected are passed over. *)
Theorem parse_raises_iff_operands_lack :
  forall path_d : string,
    raises (parse_svg_path_robust path_d)
    = lacks_operands (tokenize (chars path_d)) /\
    returns (parse_svg_path_robust path_d)
    = negb (lacks_operands (tokenize (chars path_d))) /\
    (parse_svg_path_robust path_d = Raise IndexError \/
     parse_svg_path_robust path_d = Raise ValueError \/
     exists polyline, parse_svg_path_robust path_d = Return polyline).
Proof.
  intros path_d. unfold parse_svg_path_robust.
  set (tokens := tokenize (chars path_d)).
  pose proof (while_loop_decides tokens (token_ok_tokenize _) (length tokens)
                (mkLocals [] 0 0 0 0 0)) as H.
  cbn [i] in H. specialize (H ltac:(lia)). cbn [skipn] in H.
  destruct (lacks_operands tokens).
  - destruct H as (e & -> & He). cbn [bind raises returns negb].
    repeat split. destruct He as [-> | ->]; auto.
  - destruct H as (st' & -> & _). cbn [bind raises returns negb].
    repeat split. right; right. now exists (points st').
Qed.

Lemma parse_raises_iff_operands_lack_witness :
  raises (parse_svg_path_robust "M0,0 L10") = true /\
  returns (parse_svg_path_robust "M0,0 L10 5 Z 7") = true.
Proof.
  split.
  - rewrite (proj1 (parse_raises_iff_operands_lack "M0,0 L10")). reflexivity.
  - rewrite (proj1 (proj2 (parse_raises_iff_operands_lack "M0,0 L10 5 Z 7"))).
    reflexivity.
Defined.

(** The parser comes to an end on every string. *)
Lemma parse_terminates (path_d : string) :
  parse_svg_path_robust path_d <> OutOfBudget.
Proof.
  unfold parse_svg_path_robust.
  set (tokens := tokenize (chars path_d)).
  pose proof (while_loop_decides tokens (token_ok_tokenize _) (length tokens)
                (mkLocals [] 0 0 0 0 0)) as H.
  cbn [i] in H. specialize (H ltac:(lia)).
  destruct (lacks_operands (skipn 0 tokens)).
  - destruct H as (e & -> & _). discriminate.
  - destruct H as (st' & -> & _). discriminate.
Qed.

(** C2, as the claim has it, fails: in ["5 M0,0"] a number comes before any
    command letter, and [parse] returns. *)
Lemma number_before_command_is_passed_over :
  number_before_command (tokenize (chars "5 M0,0")) = true /\
  raises (parse_svg_path_robust "5 M0,0") = false /\
  parse_svg_path_robust "5 M0,0" = Return [(0, 0)%Q].
Proof. repeat split; reflexivity. Qed.

(* ------------------------------------------------------------------ *)
(** ** Strings without a command letter *)

Lemma tokenize_numbers (s : str) :
  no_command_letter s = true -> Forall number_token (tokenize s).
Proof.
  intros Hs. eapply Forall_impl; [|apply tokenize_tokens].
  intros t [M Hin]. unfold token_pattern in M.
  inv M; [|assumption]. exfalso.
  match goal with H : Re.matches command_pattern _ |- _ => inv H end.
  unfold no_command_letter in Hs. rewrite forallb_forall in Hs.
  specialize (Hs c (Hin c (or_introl eq_refl))).
  match goal with H : Re.in_class _ c = true |- _ =>
    change (char_in c (chars "MLHVZCmlhvzc") = true) in H; rewrite H in Hs
  end.
  discriminate.
Qed.

Lemma while_loop_numbers (tokens : list str) :
  Forall number_token tokens ->
  forall (budget : nat) (st : locals),
    length tokens - i st <= budget ->
    exists st', while_loop budget tokens st = Return st' /\ points st' = points st.
Proof.
  intros Hnum. induction budget as [|budget IH]; intros st Hb;
    destruct (i st <? length tokens) eqn:Hlt;
    try (apply Nat.ltb_lt in Hlt; lia);
    try (rewrite while_loop_done by exact Hlt; now exists st).
  rewrite while_loop_turn by exact Hlt. apply Nat.ltb_lt in Hlt.
  destruct (nth_error tokens (i st)) as [t|] eqn:Ht;
    [|apply nth_error_None in Ht; lia].
  assert (Hn : number_token t).
  { eapply Forall_forall; [exact Hnum|]. eapply nth_error_In; exact Ht. }
  rewrite (loop_body_number tokens st t Ht Hn). cbn [bind].
  destruct (IH (mkLocals (points st) (current_x st) (current_y st)
                         (start_x st) (start_y st) (i st + 1)))
    as (st' & Hst' & Hpts); [cbn [i]; lia|].
  now exists st'.
Qed.

(** C9: a string without a command letter, the empty string among them,
    parses to the empty polyline, and nothing is raised. *)
Theorem parse_without_command_is_empty :
  forall path_d : string,
    no_command_letter (chars path_d) = true ->
    parse_svg_path_robust path_d = Return [].
Proof.
  intros path_d H. unfold parse_svg_path_robust.
  destruct (while_loop_numbers _ (tokenize_numbers _ H)
              (length (tokenize (chars path_d))) (mkLocals [] 0 0 0 0 0))
    as (st' & -> & Hpts); [lia|].
  cbn [bind]. now rewrite Hpts.
Qed.

Lemma parse_without_command_is_empty_witness :
  parse_svg_path_robust "" = Return [] /\
  parse_svg_path_robust "12.5, -3e2 ?#x 7" = Return [].
Proof.
  split; apply parse_without_command_is_empty; reflexivity.
Defined.

(* ------------------------------------------------------------------ *)
(** ** The commands *)

(** *** The end samples in binary64 *)

Section Binary64Facts.

Import Floats.
Local Open Scope float_scope.

Lemma digits_shift52 (m : positive) :
  Zdigits2 (Z.pos (4503599627370496 * m)) = (Zdigits2 (Z.pos m) + 52)%Z.
Proof.
  cbn [Pos.mul Zdigits2 digits2_pos].
  rewrite !Pos2Z.inj_succ. lia.
Qed.

(** Rounding [(2^52 m) * 2^(e - 52)] gives back [m * 2^e]: the product of
    [1.0] and a float is that float. *)
Lemma round_one_mul (s : bool) (m : positive) (e : Z) :
  bounded prec emax m e = true ->
  binary_round_aux prec emax s (Z.pos (4503599627370496 * m)) (-52 + e) loc_Exact
  = S754_finite s m e.
Proof.
  intros Hb. unfold bounded in Hb. apply andb_prop in Hb as [Hc He].
  unfold canonical_mantissa in Hc. apply Z.eqb_eq in Hc.
  unfold binary_round_aux, shr_fexp.
  rewrite digits_shift52.
  replace (Zdigits2 (Z.pos m) + 52 + (-52 + e))%Z with (Z.pos (digits2_pos m) + e)%Z
    by (cbn [Zdigits2]; lia).
  rewrite Hc.
  replace (e - (-52 + e))%Z with 52%Z by lia.
  cbn [Pos.mul].
  cbn [shr shr_record_of_loc SpecFloat.iter_pos shr_1 orb fst snd
       shr_m shr_r shr_s loc_of_shr_record round_nearest_even].
  replace (-52 + e + 52)%Z with e by lia.
  cbn [Zdigits2]. rewrite Hc, Z.sub_diag.
  cbn [shr shr_record_of_loc fst snd shr_m shr_r shr_s loc_of_shr_record].
  rewrite He. reflexivity.
Qed.

Lemma SFmul_one_l (x : spec_float) :
  valid_binary x = true -> Binary64.is_finite_SF x = true ->
  Binary64.same_finite x (SF64mul (Prim2SF 1) x).
Proof.
  change (Prim2SF 1) with (S754_finite false 4503599627370496 (-52)).
  destruct x as [s | s | | s m e]; cbn [Binary64.is_finite_SF];
    try discriminate; intros Hv _.
  - reflexivity.
  - cbn [Binary64.same_finite SF64mul SFmul xorb SpecFloat.valid_binary] in *.
    now apply round_one_mul.
Qed.

Lemma SFmul_zero_l (x : spec_float) :
  Binary64.is_finite_SF x = true ->
  Binary64.is_zero_SF (SF64mul (Prim2SF 0) x) = true.
Proof.
  change (Prim2SF 0) with (S754_zero false).
  destruct x; cbn; congruence.
Qed.

Lemma SFadd_zero_zero (x y : spec_float) :
  Binary64.is_zero_SF x = true -> Binary64.is_zero_SF y = true ->
  Binary64.is_zero_SF (SF64add x y) = true.
Proof.
  destruct x as [s| | |], y as [s0| | |]; cbn [Binary64.is_zero_SF];
    try discriminate; intros _ _.
  now destruct s, s0.
Qed.

Lemma SFadd_zero_r (a r z : spec_float) :
  Binary64.same_finite a r -> Binary64.is_zero_SF z = true ->
  Binary64.same_finite a (SF64add r z).
Proof.
  destruct z; cbn [Binary64.is_zero_SF]; try discriminate; intros H _.
  destruct a; cbn [Binary64.same_finite] in *; try contradiction.
  - now apply SFadd_zero_zero.
  - subst r. reflexivity.
Qed.

Lemma SFadd_zero_l (a r z : spec_float) :
  Binary64.is_zero_SF z = true -> Binary64.same_finite a r ->
  Binary64.same_finite a (SF64add z r).
Proof.
  destruct z; cbn [Binary64.is_zero_SF]; try discriminate; intros _ H.
  destruct a; cbn [Binary64.same_finite] in *; try contradiction.
  - now apply SFadd_zero_zero.
  - subst r. reflexivity.
Qed.

Lemma same_finite_eqb (a r : float) :
  Binary64.same_finite (Prim2SF a) (Prim2SF r) -> (r =? a) = true.
Proof.
  rewrite FloatAxioms.eqb_spec.
  destruct (Prim2SF a) as [s | s | | s m e]; cbn [Binary64.same_finite];
    try contradiction.
  - destruct (Prim2SF r); cbn [Binary64.is_zero_SF]; try discriminate. reflexivity.
  - intros ->. unfold SFeqb. cbn [SFcompare].
    rewrite Z.compare_refl, Pos.compare_cont_refl. now destruct s.
Qed.

(** With finite control values the sum of line 15 at [t = 0] is its first
    value: [1.0 * a0] is [a0] and each [0.0 * a] is a zero. *)
Lemma weighted_sum_at_start (a0 a1 a2 a3 : float) :
  Binary64.finite a0 = true -> Binary64.finite a1 = true ->
  Binary64.finite a2 = true -> Binary64.finite a3 = true ->
  (1 * a0 + 0 * a1 + 0 * a2 + 0 * a3 =? a0) = true.
Proof.
  intros H0 H1 H2 H3. apply same_finite_eqb.
  rewrite !add_spec, !mul_spec.
  repeat (apply SFadd_zero_r; [|now apply SFmul_zero_l]).
  apply SFmul_one_l; [apply Prim2SF_valid | exact H0].
Qed.

Lemma weighted_sum_at_end (a0 a1 a2 a3 : float) :
  Binary64.finite a0 = true -> Binary64.finite a1 = true ->
  Binary64.finite a2 = true -> Binary64.finite a3 = true ->
  (0 * a0 + 0 * a1 + 0 * a2 + 1 * a3 =? a3) = true.
Proof.
  intros H0 H1 H2 H3. apply same_finite_eqb.
  rewrite !add_spec, !mul_spec.
  apply SFadd_zero_l.
  - repeat (apply SFadd_zero_zero; [|now apply SFmul_zero_l]).
    now apply SFmul_zero_l.
  - apply SFmul_one_l; [apply Prim2SF_valid | exact H3].
Qed.

(** At [t = 0/5] and [t = 5/5] the bases of the four powers are [0.0] and
    [1.0], which [float_pow] settles without the library. *)
Lemma coordinate_at_start pow (a0 a1 a2 a3 : float) :
  Binary64.coordinate pow (Binary64.of_int 0 / Binary64.of_int 5) a0 a1 a2 a3
  = Return (1 * a0 + 0 * a1 + 0 * a2 + 0 * a3).
Proof. reflexivity. Qed.

Lemma coordinate_at_end pow (a0 a1 a2 a3 : float) :
  Binary64.coordinate pow (Binary64.of_int 5 / Binary64.of_int 5) a0 a1 a2 a3
  = Return (0 * a0 + 0 * a1 + 0 * a2 + 1 * a3).
Proof. reflexivity. Qed.

Lemma finite_point_inv (p : Binary64.point) :
  Binary64.finite_point p = true ->
  Binary64.finite (fst p) = true /\ Binary64.finite (snd p) = true.
Proof. intros H. now apply andb_prop in H. Qed.

Lemma sample_at_start pow (p0 p1 p2 p3 : Binary64.point) :
  Binary64.finite_point p0 = true -> Binary64.finite_point p1 = true ->
  Binary64.finite_point p2 = true -> Binary64.finite_point p3 = true ->
  exists first,
    Binary64.sample pow p0 p1 p2 p3 5 0 = Return first /\
    Binary64.point_eqb first p0 = true.
Proof.
  intros H0 H1 H2 H3.
  apply finite_point_inv in H0, H1, H2, H3.
  destruct H0, H1, H2, H3.
  unfold Binary64.sample. cbn [Nat.eqb bind].
  rewrite !coordinate_at_start. cbn [bind].
  eexists. split; [reflexivity|].
  unfold Binary64.point_eqb. cbn [fst snd].
  now rewrite !weighted_sum_at_start.
Qed.

Lemma sample_at_end pow (p0 p1 p2 p3 : Binary64.point) :
  Binary64.finite_point p0 = true -> Binary64.finite_point p1 = true ->
  Binary64.finite_point p2 = true -> Binary64.finite_point p3 = true ->
  exists last,
    Binary64.sample pow p0 p1 p2 p3 5 5 = Return last /\
    Binary64.point_eqb last p3 = true.
Proof.
  intros H0 H1 H2 H3.
  apply finite_point_inv in H0, H1, H2, H3.
  destruct H0, H1, H2, H3.
  unfold Binary64.sample. cbn [Nat.eqb bind].
  rewrite !coordinate_at_end. cbn [bind].
  eexists. split; [reflexivity|].
  unfold Binary64.point_eqb. cbn [fst snd].
  now rewrite !weighted_sum_at_end.
Qed.

(** The list the sampler returns for five segments holds the six samples. *)
Lemma approximate_bezier_five pow (p0 p1 p2 p3 : Binary64.point)
      (pts : list Binary64.point) :
  Binary64.approximate_bezier pow p0 p1 p2 p3 5 = Return pts ->
  exists s0 s1 s2 s3 s4 s5,
    Binary64.sample pow p0 p1 p2 p3 5 0 = Return s0 /\
    Binary64.sample pow p0 p1 p2 p3 5 1 = Return s1 /\
    Binary64.sample pow p0 p1 p2 p3 5 2 = Return s2 /\
    Binary64.sample pow p0 p1 p2 p3 5 3 = Return s3 /\
    Binary64.sample pow p0 p1 p2 p3 5 4 = Return s4 /\
    Binary64.sample pow p0 p1 p2 p3 5 5 = Return s5 /\
    pts = [s0; s1; s2; s3; s4; s5].
Proof.
  unfold Binary64.approximate_bezier, range.
  cbn [Nat.add Nat.sub seq fold_left bind].
  destruct (Binary64.sample pow p0 p1 p2 p3 5 0) as [s0| |]; cbn [bind app];
    try discriminate.
  destruct (Binary64.sample pow p0 p1 p2 p3 5 1) as [s1| |]; cbn [bind app];
    try discriminate.
  destruct (Binary64.sample pow p0 p1 p2 p3 5 2) as [s2| |]; cbn [bind app];
    try discriminate.
  destruct (Binary64.sample pow p0 p1 p2 p3 5 3) as [s3| |]; cbn [bind app];
    try discriminate.
  destruct (Binary64.sample pow p0 p1 p2 p3 5 4) as [s4| |]; cbn [bind app];
    try discriminate.
  destruct (Binary64.sample pow p0 p1 p2 p3 5 5) as [s5| |]; cbn [bind app];
    try discriminate.
  intros H. injection H as <-.
  exists s0, s1, s2, s3, s4, s5. repeat split; reflexivity.
Qed.

Lemma SFadd_nan_r (x : spec_float) : SF64add x S754_nan = S754_nan.
Proof. now destruct x. Qed.

Lemma SFadd_nan_l (x : spec_float) : SF64add S754_nan x = S754_nan.
Proof. reflexivity. Qed.

Lemma is_nan_of_SF (x : float) : Prim2SF x = S754_nan -> is_nan x = true.
Proof.
  intros H. unfold is_nan. rewrite FloatAxioms.eqb_spec, H. reflexivity.
Qed.

(** An infinite control value makes the sums of both ends NaN, whatever the
    other values are: [0.0 * inf] is NaN. *)
Lemma weighted_sums_with_infinite_control (a0 a2 a3 : float) :
  is_nan (1 * a0 + 0 * infinity + 0 * a2 + 0 * a3) = true /\
  is_nan (0 * a0 + 0 * infinity + 0 * a2 + 1 * a3) = true.
Proof.
  split; apply is_nan_of_SF; rewrite !add_spec, (mul_spec 0 infinity);
    change (SF64mul (Prim2SF 0) (Prim2SF infinity)) with S754_nan;
    now rewrite SFadd_nan_r, !SFadd_nan_l.
Qed.

(** So an infinite control point makes the first coordinate of both end
    samples NaN, whatever the library's [pow] is: the ends do not call it. *)
Lemma infinite_control_spoils_end_samples pow (p0 p1 p2 p3 : Binary64.point) :
  fst p1 = infinity ->
  exists first last,
    Binary64.sample pow p0 p1 p2 p3 5 0 = Return first /\
    is_nan (fst first) = true /\
    Binary64.sample pow p0 p1 p2 p3 5 5 = Return last /\
    is_nan (fst last) = true.
Proof.
  intros E. unfold Binary64.sample. cbn [Nat.eqb bind].
  rewrite !coordinate_at_start, !coordinate_at_end. cbn [bind]. rewrite E.
  do 2 eexists. repeat split; cbn [fst];
    apply weighted_sums_with_infinite_control.
Qed.

End Binary64Facts.

(** C4: a cubic command with its six operands samples the curve from the
    current point through the two control points to the endpoint (each moved
    by the current point for the lowercase letter) at
    [t = 0, 1/5, 2/5, 3/5, 4/5, 1] with the cubic Bezier formula, appends the
    five samples after the first, and makes the endpoint the current point.
    In binary64, when the current point and the three points of the command,
    as the parser has made them absolute, are finite, the sample at [t = 0]
    is the current point and the sample at [t = 1] is the endpoint, exactly;
    they are the first and the last of the six points the sampler returns. *)
Theorem cubic_command_flattens_into_five_segments :
  forall (tokens : list str) (st : locals) (relative : bool)
         (x1 y1 x2 y2 x y : Q),
    nth_error tokens (i st) = Some (chars (if relative then "c" else "C")) ->
    float_item tokens (i st + 1) = Return x1 ->
    float_item tokens (i st + 2) = Return y1 ->
    float_item tokens (i st + 3) = Return x2 ->
    float_item tokens (i st + 4) = Return y2 ->
    float_item tokens (i st + 5) = Return x ->
    float_item tokens (i st + 6) = Return y ->
    let p0 := (current_x st, current_y st) in
    let p1 := absolute relative p0 (x1, y1) in
    let p2 := absolute relative p0 (x2, y2) in
    let p3 := absolute relative p0 (x, y) in
    let sample := fun k => cubic_point p0 p1 p2 p3 (of_int k / of_int 5)%Q in
    approximate_bezier p0 p1 p2 p3 5 = Return (map sample [0; 1; 2; 3; 4; 5]) /\
    loop_body tokens st
    = Return (mkLocals (points st ++ map sample [1; 2; 3; 4; 5])
                       (fst p3) (snd p3) (start_x st) (start_y st) (i st + 7)) /\
    forall pow (current c1 c2 c3 : Binary64.point),
      let q1 := Binary64.absolute relative current c1 in
      let q2 := Binary64.absolute relative current c2 in
      let q3 := Binary64.absolute relative current c3 in
      Binary64.finite_point current = true ->
      Binary64.finite_point q1 = true ->
      Binary64.finite_point q2 = true ->
      Binary64.finite_point q3 = true ->
      exists first last,
        Binary64.sample pow current q1 q2 q3 5 0 = Return first /\
        Binary64.point_eqb first current = true /\
        Binary64.sample pow current q1 q2 q3 5 5 = Return last /\
        Binary64.point_eqb last q3 = true /\
        forall pts,
          Binary64.approximate_bezier pow current q1 q2 q3 5 = Return pts ->
          length pts = 6 /\
          nth_error pts 0 = Some first /\ nth_error pts 5 = Some last.
Proof.
  intros tokens st relative x1 y1 x2 y2 x y Hcmd H1 H2 H3 H4 H5 H6
         p0 p1 p2 p3 sample.
  split; [apply approximate_bezier_samples|].
  split.
  - unfold loop_body, item. rewrite Hcmd. cbv zeta. cbn [bind].
    replace (i st + 1 + 1) with (i st + 2) by lia.
    replace (i st + 1 + 2) with (i st + 3) by lia.
    replace (i st + 1 + 3) with (i st + 4) by lia.
    replace (i st + 1 + 4) with (i st + 5) by lia.
    replace (i st + 1 + 5) with (i st + 6) by lia.
    replace (i st + 1 + 6) with (i st + 7) by lia.
    rewrite H1, H2, H3, H4, H5, H6.
    subst sample p1 p2 p3 p0.
    destruct relative;
      cbn -[approximate_bezier Qplus]; rewrite approximate_bezier_samples;
      reflexivity.
  - intros pow current c1 c2 c3 q1 q2 q3 F0 F1 F2 F3.
    destruct (sample_at_start pow current q1 q2 q3 F0 F1 F2 F3)
      as (first & Hfirst & Efirst).
    destruct (sample_at_end pow current q1 q2 q3 F0 F1 F2 F3)
      as (last & Hlast & Elast).
    exists first, last. repeat (split; [assumption|]).
    intros pts Hpts.
    apply approximate_bezier_five in Hpts.
    destruct Hpts as (s0 & s1 & s2 & s3 & s4 & s5
                      & E0 & _ & _ & _ & _ & E5 & ->).
    rewrite Hfirst in E0. rewrite Hlast in E5.
    injection E0 as <-. injection E5 as <-.
    repeat split; reflexivity.
Qed.

Section CubicCommandExamples.

Import Floats.

Lemma cubic_command_flattens_into_five_segments_witness :
  loop_body (tokenize (chars "M1,1 c 1,1 2,1 3,0")) (mkLocals [(1, 1)%Q] 1 1 1 1 3)
  = Return
      (mkLocals
         ([(1, 1)%Q]
          ++ map (fun k => cubic_point (1, 1) (1 + 1, 1 + 1) (2 + 1, 1 + 1)
                                       (3 + 1, 0 + 1) (of_int k / of_int 5))%Q
                 [1; 2; 3; 4; 5])
         (3 + 1) (0 + 1) 1 1 10) /\
  exists first last,
    Binary64.sample Binary64.pow_by_products
      (1, 1)%float (2, 2)%float (3, 2)%float (4, 1)%float 5 0 = Return first /\
    Binary64.point_eqb first (1, 1)%float = true /\
    Binary64.sample Binary64.pow_by_products
      (1, 1)%float (2, 2)%float (3, 2)%float (4, 1)%float 5 5 = Return last /\
    Binary64.point_eqb last (4, 1)%float = true.
Proof.
  pose proof (cubic_command_flattens_into_five_segments
                (tokenize (chars "M1,1 c 1,1 2,1 3,0"))
                (mkLocals [(1, 1)%Q] 1 1 1 1 3) true 1 1 2 1 3 0
                eq_refl eq_refl eq_refl eq_refl eq_refl eq_refl eq_refl)
    as (_ & Hbody & Hends).
  split; [exact Hbody|].
  destruct (Hends Binary64.pow_by_products
                  (1, 1)%float (1, 1)%float (2, 1)%float (3, 0)%float
                  eq_refl eq_refl eq_refl eq_refl)
    as (first & last & Hfirst & Efirst & Hlast & Elast & _).
  exists first, last. repeat split; assumption.
Defined.

(** On ["M1.7e308,0 c1.7e308,0 0,0 0,0"] the operands are finite, but the
    first control point, moved by the current point, is
    [(1.7e308 + 1.7e308, 0) = (inf, 0)]: the samples at [t = 0] and at
    [t = 1] are [(nan, 0)], and equal neither the current point nor the
    endpoint. *)
Lemma cubic_end_samples_are_nan_after_overflow :
  Binary64.finite_point (0x1.e42d130773b76p+1023, 0)%float = true /\
  Binary64.finite_point (0, 0)%float = true /\
  Binary64.absolute true (0x1.e42d130773b76p+1023, 0)%float
                         (0x1.e42d130773b76p+1023, 0)%float
  = (infinity, 0)%float /\
  Binary64.absolute true (0x1.e42d130773b76p+1023, 0)%float (0, 0)%float
  = (0x1.e42d130773b76p+1023, 0)%float /\
  Binary64.sample Binary64.pow_by_products
    (0x1.e42d130773b76p+1023, 0)%float (infinity, 0)%float
    (0x1.e42d130773b76p+1023, 0)%float (0x1.e42d130773b76p+1023, 0)%float 5 0
  = Return (nan, 0)%float /\
  Binary64.sample Binary64.pow_by_products
    (0x1.e42d130773b76p+1023, 0)%float (infinity, 0)%float
    (0x1.e42d130773b76p+1023, 0)%float (0x1.e42d130773b76p+1023, 0)%float 5 5
  = Return (nan, 0)%float /\
  Binary64.point_eqb (nan, 0)%float (0x1.e42d130773b76p+1023, 0)%float = false.
Proof. repeat split; vm_compute; reflexivity. Qed.

End CubicCommandExamples.

(** C6: ["M0,0 L10,0 L10,10 L0,10 Z"] parses to
    [(0,0), (10,0), (10,10), (0,10), (0,0)]: when the loop reaches [Z] the
    current point is [(0,10)] and the start is [(0,0)], so the turn for [Z]
    appends the start. *)
Theorem parse_closed_square :
  parse_svg_path_robust "M0,0 L10,0 L10,10 L0,10 Z"
  = Return [(0, 0); (10, 0); (10, 10); (0, 10); (0, 0)]%Q /\
  while_loop 12 (tokenize (chars "M0,0 L10,0 L10,10 L0,10"))
             (mkLocals [] 0 0 0 0 0)
  = Return (mkLocals [(0, 0); (10, 0); (10, 10); (0, 10)]%Q 0 10 0 0 12) /\
  nth_error (tokenize (chars "M0,0 L10,0 L10,10 L0,10 Z")) 12 = Some (chars "Z") /\
  pair_neq 0 10 0 0 = true /\
  loop_body (tokenize (chars "M0,0 L10,0 L10,10 L0,10 Z"))
            (mkLocals [(0, 0); (10, 0); (10, 10); (0, 10)]%Q 0 10 0 0 12)
  = Return (mkLocals [(0, 0); (10, 0); (10, 10); (0, 10); (0, 0)]%Q 0 0 0 0 13).
Proof. repeat split; vm_compute; reflexivity. Qed.

(** The target of a Line command: its operands for [L], the current point
    moved by them for [l]. *)
Lemma line_command_turn (tokens : list str) (st : locals) (relative : bool)
      (x y : Q) :
  nth_error tokens (i st) = Some (chars (if relative then "l" else "L")) ->
  float_item tokens (i st + 1) = Return x ->
  float_item tokens (i st + 2) = Return y ->
  loop_body tokens st
  = Return (if relative
            then mkLocals (points st ++ [(current_x st + x, current_y st + y)%Q])
                          (current_x st + x) (current_y st + y)
                          (start_x st) (start_y st) (i st + 3)
            else mkLocals (points st ++ [(x, y)]) x y
                          (start_x st) (start_y st) (i st + 3)).
Proof.
  intros Hcmd Hx Hy. unfold loop_body, item. rewrite Hcmd. cbv zeta. cbn [bind].
  replace (i st + 1 + 1) with (i st + 2) by lia.
  replace (i st + 1 + 2) with (i st + 3) by lia.
  rewrite Hx, Hy. destruct relative; reflexivity.
Qed.

(** The target of a Move command, which is also the new start. *)
Lemma move_command_turn (tokens : list str) (st : locals) (relative : bool)
      (x y : Q) :
  nth_error tokens (i st) = Some (chars (if relative then "m" else "M")) ->
  float_item tokens (i st + 1) = Return x ->
  float_item tokens (i st + 2) = Return y ->
  loop_body tokens st
  = Return (if relative
            then mkLocals (points st ++ [(current_x st + x, current_y st + y)%Q])
                          (current_x st + x) (current_y st + y)
                          (current_x st + x) (current_y st + y) (i st + 3)
            else mkLocals (points st ++ [(x, y)]) x y x y (i st + 3)).
Proof.
  intros Hcmd Hx Hy. unfold loop_body, item. rewrite Hcmd. cbv zeta. cbn [bind].
  replace (i st + 1 + 1) with (i st + 2) by lia.
  replace (i st + 1 + 2) with (i st + 3) by lia.
  rewrite Hx, Hy. destruct relative; reflexivity.
Qed.

(** C7: the relative ["M0,0 l10,0 l0,10 l-10,0 Z"] and the absolute
    ["M0,0 L10,0 L10,10 L0,10 Z"] parse to the same polyline; a lowercase
    Move or Line command adds its operands to the current point and an
    uppercase one takes them as the point. *)
Theorem relative_square_is_absolute_square :
  parse_svg_path_robust "M0,0 l10,0 l0,10 l-10,0 Z"
  = parse_svg_path_robust "M0,0 L10,0 L10,10 L0,10 Z" /\
  parse_svg_path_robust "M0,0 l10,0 l0,10 l-10,0 Z"
  = Return [(0, 0); (10, 0); (10, 10); (0, 10); (0, 0)]%Q /\
  (forall (tokens : list str) (st : locals) (x y : Q),
     nth_error tokens (i st) = Some (chars "l") ->
     float_item tokens (i st + 1) = Return x ->
     float_item tokens (i st + 2) = Return y ->
     loop_body tokens st
     = Return (mkLocals (points st ++ [(current_x st + x, current_y st + y)%Q])
                        (current_x st + x) (current_y st + y)
                        (start_x st) (start_y st) (i st + 3))) /\
  (forall (tokens : list str) (st : locals) (x y : Q),
     nth_error tokens (i st) = Some (chars "L") ->
     float_item tokens (i st + 1) = Return x ->
     float_item tokens (i st + 2) = Return y ->
     loop_body tokens st
     = Return (mkLocals (points st ++ [(x, y)]) x y
                        (start_x st) (start_y st) (i st + 3))) /\
  (forall (tokens : list str) (st : locals) (x y : Q),
     nth_error tokens (i st) = Some (chars "m") ->
     float_item tokens (i st + 1) = Return x ->
     float_item tokens (i st + 2) = Return y ->
     loop_body tokens st
     = Return (mkLocals (points st ++ [(current_x st + x, current_y st + y)%Q])
                        (current_x st + x) (current_y st + y)
                        (current_x st + x) (current_y st + y) (i st + 3))) /\
  (forall (tokens : list str) (st : locals) (x y : Q),
     nth_error tokens (i st) = Some (chars "M") ->
     float_item tokens (i st + 1) = Return x ->
     float_item tokens (i st + 2) = Return y ->
     loop_body tokens st
     = Return (mkLocals (points st ++ [(x, y)]) x y x y (i st + 3))).
Proof.
  split; [vm_compute; reflexivity|].
  split; [vm_compute; reflexivity|].
  repeat split; intros tokens st x y Hcmd Hx Hy.
  - exact (line_command_turn tokens st true x y Hcmd Hx Hy).
  - exact (line_command_turn tokens st false x y Hcmd Hx Hy).
  - exact (move_command_turn tokens st true x y Hcmd Hx Hy).
  - exact (move_command_turn tokens st false x y Hcmd Hx Hy).
Qed.

Lemma relative_square_is_absolute_square_witness :
  loop_body (tokenize (chars "M0,0 l10,0 l0,10 l-10,0 Z"))
            (mkLocals [(0, 0); (10, 0)]%Q 10 0 0 0 6)
  = Return (mkLocals ([(0, 0); (10, 0)]%Q ++ [(10 + 0, 0 + 10)%Q])
                     (10 + 0) (0 + 10) 0 0 9) /\
  loop_body (tokenize (chars "M0,0 L10,0 L10,10 L0,10 Z"))
            (mkLocals [(0, 0); (10, 0)]%Q 10 0 0 0 6)
  = Return (mkLocals ([(0, 0); (10, 0)]%Q ++ [(10, 10)%Q]) 10 10 0 0 9).
Proof.
  split.
  - apply (proj1 (proj2 (proj2 relative_square_is_absolute_square))
             (tokenize (chars "M0,0 l10,0 l0,10 l-10,0 Z"))
             (mkLocals [(0, 0); (10, 0)]%Q 10 0 0 0 6) 0%Q 10%Q);
      reflexivity.
  - apply (proj1 (proj2 (proj2 (proj2 relative_square_is_absolute_square)))
             (tokenize (chars "M0,0 L10,0 L10,10 L0,10 Z"))
             (mkLocals [(0, 0); (10, 0)]%Q 10 0 0 0 6) 10%Q 10%Q);
      reflexivity.
Defined.

(* ------------------------------------------------------------------ *)
(** ** The run as a whole *)

Lemma path_turn_terminates (scale depth : Q) (path_d : option string) (m : mesh) :
  path_turn scale depth path_d m <> OutOfBudget.
Proof.
  unfold path_turn. destruct path_d as [[|c d]|]; try discriminate.
  pose proof (parse_terminates (String c d)) as H.
  destruct (parse_svg_path_robust (String c d)) as [pts| |];
    [|discriminate|contradiction].
  cbn [bind]. destruct (length pts <? 3); discriminate.
Qed.

(** The run comes to an end on every list of paths. *)
Lemma svg_to_obj_terminates (scale depth : Q) (paths : list (option string)) :
  svg_to_obj scale depth paths <> OutOfBudget.
Proof.
  unfold svg_to_obj. generalize (mkMesh [] []).
  induction paths as [|p paths IH]; intros m; [discriminate|].
  rewrite for_paths_cons.
  pose proof (path_turn_terminates scale depth p m) as H.
  destruct (path_turn scale depth p m) as [m'| |];
    [apply IH | discriminate | contradiction].
Qed.

(** A path whose string makes the parser raise ends the run with that
    exception: no turn of the loop over the paths handles it. *)
Lemma raising_path_ends_run (scale depth : Q) (d : string) (e : exn)
      (before after : list (option string)) (m m' : mesh) :
  d <> EmptyString ->
  parse_svg_path_robust d = Raise e ->
  for_paths scale depth before m = Return m' ->
  for_paths scale depth (before ++ Some d :: after) m = Raise e.
Proof.
  intros Hd Hp Hb. rewrite for_paths_app, Hb. cbn [bind].
  rewrite for_paths_cons. unfold path_turn.
  destruct d as [|c d]; [contradiction|]. now rewrite Hp.
Qed.

Example run_ends_at_short_operands :
  svg_to_obj 1 2 [Some "M0,0 L4,0 L4,4 L0,4"; Some "M0,0 L4"; Some "M9,9 L5,9 L5,5"]%string
  = Raise IndexError.
Proof. reflexivity. Qed.

(* ================================================================== *)
(** * Further properties *)

(* ------------------------------------------------------------------ *)
(** ** The curve sampler, for any number of segments *)

Lemma Return_inj {A : Type} (a b : A) : Return a = Return b -> a = b.
Proof. intros H. now injection H. Qed.

Lemma fold_left_raise {A B : Type} (f : outcome A -> B -> outcome A)
      (Hf : forall e b, f (Raise e) b = Raise e) (l : list B) (e : exn) :
  fold_left f l (Raise e) = Raise e.
Proof. induction l as [|b l IH]; cbn [fold_left]; [reflexivity | now rewrite Hf]. Qed.

Lemma fold_left_out_of_budget {A B : Type} (f : outcome A -> B -> outcome A)
      (Hf : forall b, f OutOfBudget b = OutOfBudget) (l : list B) :
  fold_left f l OutOfBudget = OutOfBudget.
Proof. induction l as [|b l IH]; cbn [fold_left]; [reflexivity | now rewrite Hf]. Qed.

(** Each turn of the loop of lines 13-18 that does not raise appends one
    point. *)
Lemma binary64_sampler_length pow (p0 p1 p2 p3 : Binary64.point)
      (segments : nat) (l : list nat) :
  forall acc pts : list Binary64.point,
    fold_left
      (fun acc i =>
         points <- acc ;;
         p <- Binary64.sample pow p0 p1 p2 p3 segments i ;;
         Return (points ++ [p]))
      l (Return acc)
    = Return pts ->
    length pts = length acc + length l.
Proof.
  induction l as [|k l IH]; intros acc pts H; cbn [fold_left bind] in H.
  - apply Return_inj in H. subst pts. cbn [length]. lia.
  - destruct (Binary64.sample pow p0 p1 p2 p3 segments k) as [p|e|];
      cbn [bind] in H.
    + apply IH in H. rewrite H, length_app. cbn [length]. lia.
    + rewrite fold_left_raise in H by reflexivity. discriminate.
    + rewrite fold_left_out_of_budget in H by reflexivity. discriminate.
Qed.

(** X1: with [segments >= 1] the sampler returns [segments + 1] points and
    no more, the [k]-th being the cubic formula at [t = k / segments]; in
    binary64 too a call that returns gives [segments + 1] points, whatever
    the control points and the library's [pow] are. *)
Theorem approximate_bezier_gives_one_point_per_parameter :
  forall (p0 p1 p2 p3 : point) (segments : nat),
    0 < segments ->
    (exists pts,
       approximate_bezier p0 p1 p2 p3 segments = Return pts /\
       length pts = segments + 1 /\
       forall k, k <= segments ->
         nth_error pts k
         = Some (cubic_point p0 p1 p2 p3 (of_int k / of_int segments)%Q)) /\
    forall pow (q0 q1 q2 q3 : Binary64.point) (pts : list Binary64.point),
      Binary64.approximate_bezier pow q0 q1 q2 q3 segments = Return pts ->
      length pts = segments + 1.
Proof.
  intros p0 p1 p2 p3 segments Hs. split.
  - destruct segments as [|n]; [lia|].
    set (sample := fun k => cubic_point p0 p1 p2 p3 (of_int k / of_int (S n))%Q).
    exists (map sample (seq 0 (S n + 1))).
    split; [apply approximate_bezier_samples|].
    split; [now rewrite length_map, length_seq|].
    intros k Hk. rewrite nth_error_map, nth_error_seq.
    destruct (Nat.ltb_spec k (S n + 1)); [reflexivity | lia].
  - intros pow q0 q1 q2 q3 pts H.
    apply binary64_sampler_length in H.
    rewrite H. unfold range. rewrite length_seq. cbn [length]. lia.
Qed.

Lemma approximate_bezier_gives_one_point_per_parameter_witness :
  exists pts,
    approximate_bezier (0, 0)%Q (1, 2)%Q (3, 2)%Q (4, 0)%Q 10 = Return pts /\
    length pts = 11.
Proof.
  destruct (approximate_bezier_gives_one_point_per_parameter
              (0, 0)%Q (1, 2)%Q (3, 2)%Q (4, 0)%Q 10 ltac:(lia))
    as ((pts & H1 & H2 & _) & _).
  exists pts. split; assumption.
Defined.

(** X2: with [segments = 0] the sampler raises [ZeroDivisionError], whatever
    the control points. *)
Theorem approximate_bezier_zero_segments_raises :
  forall p0 p1 p2 p3 : point,
    approximate_bezier p0 p1 p2 p3 0 = Raise ZeroDivisionError /\
    returns (approximate_bezier p0 p1 p2 p3 0) = false.
Proof. intros. split; reflexivity. Qed.

(* ------------------------------------------------------------------ *)
(** ** Tokens do not reach across separators and command letters *)

Section MatcherExt.
Context {A : Type}.

Lemma repeat_class_ext (cl : Re.class) (s : str) (k k' : str -> option A) :
  (forall x, k x = k' x) ->
  Re.repeat_class cl s k = Re.repeat_class cl s k'.
Proof.
  intros Hk. induction s as [|c s IH]; simpl; [apply Hk|].
  now rewrite IH, Hk.
Qed.

Lemma rmatch_ext (r : Re.regex) :
  forall (s : str) (k k' : str -> option A),
    (forall x, k x = k' x) -> Re.rmatch r s k = Re.rmatch r s k'.
Proof.
  induction r as [a|cl|r1 IH1 r2 IH2|r1 IH1 r2 IH2|r1 IH1|cl|cl];
    intros s k k' Hk; simpl.
  - destruct s as [|c s]; [reflexivity|]. now rewrite Hk.
  - destruct s as [|c s]; [reflexivity|]. now rewrite Hk.
  - apply IH1. intros x. now apply IH2.
  - now rewrite (IH1 s k k' Hk), (IH2 s k k' Hk).
  - now rewrite (IH1 s k k' Hk), Hk.
  - now apply repeat_class_ext.
  - destruct s as [|c s]; [reflexivity|].
    destruct (Re.in_class cl c); [now apply repeat_class_ext | reflexivity].
Qed.

End MatcherExt.

Section MatcherLocal.
Context {A B : Type}.

Lemma orelse_map (f : A -> B) (x y : option A) :
  Re.orelse (option_map f x) (option_map f y) = option_map f (Re.orelse x y).
Proof. now destruct x. Qed.

Lemma repeat_class_map (f : A -> B) (cl : Re.class) (s : str) (k : str -> option A) :
  Re.repeat_class cl s (fun x => option_map f (k x))
  = option_map f (Re.repeat_class cl s k).
Proof.
  induction s as [|c s IH]; simpl; [reflexivity|].
  destruct (Re.in_class cl c); [|reflexivity].
  now rewrite IH, orelse_map.
Qed.

Lemma rmatch_map (f : A -> B) (r : Re.regex) :
  forall (s : str) (k : str -> option A),
    Re.rmatch r s (fun x => option_map f (k x)) = option_map f (Re.rmatch r s k).
Proof.
  induction r as [a|cl|r1 IH1 r2 IH2|r1 IH1 r2 IH2|r1 IH1|cl|cl];
    intros s k; simpl.
  - destruct s as [|c s]; [reflexivity|]. now destruct (Ascii.eqb a c).
  - destruct s as [|c s]; [reflexivity|]. now destruct (Re.in_class cl c).
  - rewrite <- IH1. apply rmatch_ext. intros x. apply IH2.
  - now rewrite IH1, IH2, orelse_map.
  - now rewrite IH1, orelse_map.
  - apply repeat_class_map.
  - destruct s as [|c s]; [reflexivity|].
    destruct (Re.in_class cl c); [apply repeat_class_map | reflexivity].
Qed.
End MatcherLocal.

Section MatcherAvoids.
Context {A : Type}.
Variables (c : ascii) (b : str).

Lemma repeat_class_avoids (cl : Re.class) (k k' : str -> option A) :
  Re.in_class cl c = false ->
  (forall a, k (a ++ c :: b) = k' a) ->
  forall a, Re.repeat_class cl (a ++ c :: b) k = Re.repeat_class cl a k'.
Proof.
  intros Hc Hk. induction a as [|x a IH]; simpl.
  - rewrite Hc. apply (Hk []).
  - rewrite IH. pose proof (Hk (x :: a)) as Hx. cbn [app] in Hx.
    now rewrite Hx.
Qed.

Lemma rmatch_avoids (r : Re.regex) :
  avoids r c = true ->
  forall (k k' : str -> option A),
    (forall a, k (a ++ c :: b) = k' a) ->
    forall a, Re.rmatch r (a ++ c :: b) k = Re.rmatch r a k'.
Proof.
  induction r as [x|cl|r1 IH1 r2 IH2|r1 IH1 r2 IH2|r1 IH1|cl|cl];
    simpl; intros Hr k k' Hk a.
  - destruct a as [|y a]; simpl.
    + apply negb_true_iff in Hr. now rewrite Hr.
    + now rewrite Hk.
  - destruct a as [|y a]; simpl.
    + apply negb_true_iff in Hr. now rewrite Hr.
    + now rewrite Hk.
  - apply andb_prop in Hr. destruct Hr as [H1 H2].
    apply (IH1 H1). intros a'. now apply (IH2 H2).
  - apply andb_prop in Hr. destruct Hr as [H1 H2].
    now rewrite (IH1 H1 k k' Hk), (IH2 H2 k k' Hk).
  - now rewrite (IH1 Hr k k' Hk), (Hk a).
  - apply negb_true_iff in Hr. now apply repeat_class_avoids.
  - apply negb_true_iff in Hr. destruct a as [|y a]; simpl.
    + now rewrite Hr.
    + now rewrite (repeat_class_avoids cl k k' Hr Hk).
Qed.
End MatcherAvoids.

Lemma match_here_avoids (r : Re.regex) (c : ascii) (a b : str) :
  avoids r c = true ->
  Re.match_here r (a ++ c :: b)
  = option_map (fun rest => rest ++ c :: b) (Re.match_here r a).
Proof.
  intros Hr. unfold Re.match_here.
  transitivity (Re.rmatch r a
                  (fun x => option_map (fun rest => rest ++ c :: b) (Some x))).
  - now apply rmatch_avoids.
  - apply rmatch_map.
Qed.

(** Where matching in front of [c] does not look past [c], the tokens in
    front of [c] are those of the front alone. *)
Lemma findall_from_local (r : Re.regex) (c : ascii) (b : str) :
  (forall x a,
     Re.match_here r ((x :: a) ++ c :: b)
     = option_map (fun rest => rest ++ c :: b) (Re.match_here r (x :: a))) ->
  forall (a : str) (n : nat),
    n <= length a ->
    Re.findall_from r (a ++ c :: b) n
    = Re.findall_from r a n ++ Re.findall_from r (c :: b) 0.
Proof.
  intros Hloc. induction a as [|x a IH]; intros n Hn.
  - simpl in Hn. now replace n with 0 by lia.
  - change ((x :: a) ++ c :: b) with (x :: (a ++ c :: b)).
    rewrite !findall_from_cons.
    change (x :: (a ++ c :: b)) with ((x :: a) ++ c :: b).
    destruct n as [|n]; [|apply IH; simpl in Hn; lia].
    rewrite Hloc.
    destruct (Re.match_here r (x :: a)) as [rest|] eqn:E; cbn [option_map];
      [|apply IH; lia].
    apply match_here_sound in E. destruct E as (tok & E & _).
    assert (Hlen : length ((x :: a) ++ c :: b) - length (rest ++ c :: b)
                   = length (x :: a) - length rest).
    { rewrite !length_app. lia. }
    rewrite Hlen.
    assert (Hle : length (x :: a) - length rest <= length (x :: a)) by lia.
    destruct (length (x :: a) - length rest) as [|m] eqn:L; [apply IH; lia|].
    rewrite firstn_app.
    replace (S m - length (x :: a)) with 0 by lia.
    rewrite firstn_O, app_nil_r, <- app_comm_cons.
    apply (f_equal (cons _)).
    apply IH. simpl in Hle. lia.
Qed.

Lemma findall_from_separator (r : Re.regex) (c : ascii) (b : str) :
  avoids r c = true ->
  Re.findall_from r (c :: b) 0 = Re.findall_from r b 0.
Proof.
  intros Hr. rewrite findall_from_cons.
  change (c :: b) with ([] ++ c :: b) at 1 2 3. rewrite match_here_avoids by exact Hr.
  destruct (Re.match_here r []) as [rest|] eqn:E; cbn [option_map]; [|reflexivity].
  apply match_here_sound in E. destruct E as (tok & E & _).
  symmetry in E. apply app_eq_nil in E. destruct E as [_ ->].
  cbn [app]. now rewrite Nat.sub_diag.
Qed.

Lemma chars_app (a b : string) : chars (a ++ b)%string = chars a ++ chars b.
Proof.
  unfold chars. induction a as [|x a IH]; simpl; [reflexivity | now rewrite IH].
Qed.

Lemma chars_sep (a b : string) (c : ascii) :
  chars (a ++ String c b)%string = chars a ++ c :: chars b.
Proof. now rewrite chars_app. Qed.

Lemma tokenize_separator (a b : string) (c : ascii) :
  separator c = true ->
  tokenize (chars (a ++ String c b)%string)
  = tokenize (chars a) ++ tokenize (chars b).
Proof.
  intros Hc. rewrite chars_sep. unfold tokenize, Re.findall.
  rewrite findall_from_local.
  - now rewrite findall_from_separator.
  - intros y s. now apply match_here_avoids.
  - lia.
Qed.

(** X4: a separator ends the token before it and starts none: the tokens of
    [a ++ c :: b] are those of [a] followed by those of [b].  So any two
    separators can stand for each other (a comma for a blank, an unknown
    character for either) without changing what the parser gives. *)
Theorem separators_split_and_are_interchangeable :
  forall (a b : string) (c c' : ascii),
    separator c = true ->
    separator c' = true ->
    tokenize (chars (a ++ String c b)%string)
    = tokenize (chars a) ++ tokenize (chars b) /\
    parse_svg_path_robust (a ++ String c b)%string
    = parse_svg_path_robust (a ++ String c' b)%string.
Proof.
  intros a b c c' Hc Hc'.
  split; [now apply tokenize_separator|].
  unfold parse_svg_path_robust. now rewrite !tokenize_separator.
Qed.

Lemma separators_split_and_are_interchangeable_witness :
  parse_svg_path_robust "M0,0 L10,0" = parse_svg_path_robust "M0 0 L10;0".
Proof.
  transitivity (parse_svg_path_robust "M0 0 L10,0").
  - apply (separators_split_and_are_interchangeable "M0" "0 L10,0" "," " ");
      reflexivity.
  - apply (separators_split_and_are_interchangeable "M0 0 L10" "0" "," ";");
      reflexivity.
Defined.

Lemma command_letter_avoids_number (c : ascii) :
  command_letter c = true -> avoids number_pattern c = true.
Proof.
  intros H.
  assert (Hin : In [c] (map chars ["M"; "L"; "H"; "V"; "Z"; "C";
                                   "m"; "l"; "h"; "v"; "z"; "c"]%string))
    by (apply command_cases; exact H).
  simpl in Hin.
  repeat (destruct Hin as [Hin | Hin];
          [injection Hin as <-; reflexivity|]).
  contradiction.
Qed.

Lemma match_here_before_command (c : ascii) (b : str) :
  command_letter c = true ->
  forall x a,
    Re.match_here token_pattern ((x :: a) ++ c :: b)
    = option_map (fun rest => rest ++ c :: b)
                 (Re.match_here token_pattern (x :: a)).
Proof.
  intros Hc x a. unfold Re.match_here, token_pattern.
  cbn [Re.rmatch]. rewrite <- orelse_map. f_equal.
  - unfold command_pattern. cbn [Re.rmatch app].
    now destruct (Re.in_class (Re.OneOf "MLHVZCmlhvzc") x).
  - apply (match_here_avoids number_pattern c (x :: a) b).
    now apply command_letter_avoids_number.
Qed.

Lemma tokenize_command_letter (a b : str) (c : ascii) :
  command_letter c = true ->
  tokenize (a ++ c :: b) = tokenize a ++ [c] :: tokenize b.
Proof.
  intros Hc. unfold tokenize, Re.findall.
  rewrite findall_from_local;
    [|now apply match_here_before_command | lia].
  f_equal. rewrite findall_from_cons.
  assert (E : Re.match_here token_pattern (c :: b) = Some b).
  { unfold Re.match_here, token_pattern, command_pattern. cbn [Re.rmatch].
    change (Re.in_class (Re.OneOf "MLHVZCmlhvzc") c) with (command_letter c).
    now rewrite Hc. }
  rewrite E. cbn [length].
  replace (S (length b) - length b) with 1 by lia.
  reflexivity.
Qed.

(** X5: a command letter is always a token of its own: it ends the token
    before it, whatever comes before or after, so the tokens of
    [a ++ c :: b] are those of [a], the letter, and those of [b]. *)
Theorem command_letter_is_its_own_token :
  forall (a b : str) (c : ascii),
    command_letter c = true ->
    tokenize (a ++ c :: b) = tokenize a ++ [c] :: tokenize b.
Proof.
  intros a b c Hc. now apply tokenize_command_letter.
Qed.

Lemma command_letter_is_its_own_token_witness :
  tokenize (chars "10" ++ "L"%char :: chars "5-3")
  = tokenize (chars "10") ++ [["L"%char]] ++ tokenize (chars "5-3").
Proof.
  apply (command_letter_is_its_own_token (chars "10") (chars "5-3") "L").
  reflexivity.
Defined.

(* ------------------------------------------------------------------ *)
(** ** Which exception the parser raises *)

Lemma float_item_missing_kind (k : nat) :
  forall rest,
    Forall token_ok rest ->
    numbers_follow k rest = true ->
    numbers_follow (S k) rest = false ->
    forall d, float_item rest k = Raise (lack_kind (S k + d) rest).
Proof.
  induction k as [|k IH]; intros rest Hok Hk H d.
  - destruct rest as [|t r]; [reflexivity|].
    simpl in H. rewrite andb_true_r in H. apply negb_false_iff in H.
    unfold float_item, item, lack_kind. cbn [nth_error bind firstn forallb Nat.add].
    rewrite H. cbn [negb andb]. now apply command_float.
  - destruct rest as [|t r]; [discriminate|].
    inversion Hok as [|? ? Hokt Hokr]; subst.
    change (numbers_follow (S k) (t :: r))
      with (negb (is_command t) && numbers_follow k r) in Hk.
    change (numbers_follow (S (S k)) (t :: r))
      with (negb (is_command t) && numbers_follow (S k) r) in H.
    apply andb_prop in Hk. destruct Hk as [Ht Hk]. rewrite Ht in H.
    rewrite float_item_cons, (IH r Hokr Hk H d).
    unfold lack_kind. cbn [Nat.add firstn forallb]. now rewrite Ht.
Qed.

Ltac read_operands_kind rest Hok Hk k todo :=
  lazymatch todo with
  | O => congruence
  | S ?todo' =>
      let E := fresh "E" in
      destruct (numbers_follow (S k) rest) eqn:E;
      [ let q := fresh "q" in
        let Hq := fresh "Hq" in
        destruct (float_item_number k rest Hok E) as (q & Hq);
        rewrite Hq; cbn [bind];
        read_operands_kind rest Hok E (S k) todo'
      | rewrite (float_item_missing_kind k rest Hok Hk E todo');
        cbn [bind]; reflexivity ]
  end.

Lemma loop_body_command_kind (tokens : list str) (st : locals) (cmd : str) :
  Forall token_ok tokens ->
  nth_error tokens (i st) = Some cmd ->
  is_command cmd = true ->
  numbers_follow (operand_count cmd) (skipn (S (i st)) tokens) = false ->
  loop_body tokens st
  = Raise (lack_kind (operand_count cmd) (skipn (S (i st)) tokens)).
Proof.
  intros Hok Hcmd Hc.
  assert (Hrest : Forall token_ok (skipn (S (i st)) tokens))
    by now apply Forall_skipn.
  revert Hrest. generalize (eq_refl (skipn (S (i st)) tokens)).
  generalize (skipn (S (i st)) tokens) at 1 3 4 5 as rest.
  intros rest Erest Hrest.
  unfold loop_body, item. rewrite Hcmd. cbv zeta. cbn [bind].
  rewrite ?float_item_after, ?float_item_next, <- Erest.
  assert (H0 : numbers_follow 0 rest = true) by reflexivity.
  apply command_cases in Hc. simpl in Hc.
  repeat (destruct Hc as [<- | Hc]);
    try contradiction;
    cbn -[float_item approximate_bezier Qplus numbers_follow lack_kind];
    intros Hlack;
    [ read_operands_kind rest Hrest H0 0 2
    | read_operands_kind rest Hrest H0 0 2
    | read_operands_kind rest Hrest H0 0 1
    | read_operands_kind rest Hrest H0 0 1
    | discriminate
    | read_operands_kind rest Hrest H0 0 6
    | read_operands_kind rest Hrest H0 0 2
    | read_operands_kind rest Hrest H0 0 2
    | read_operands_kind rest Hrest H0 0 1
    | read_operands_kind rest Hrest H0 0 1
    | discriminate
    | read_operands_kind rest Hrest H0 0 6 ].
Qed.

Lemma failure_of_skip (k : nat) :
  forall rest,
    numbers_follow k rest = true ->
    failure_of rest = failure_of (skipn k rest).
Proof.
  induction k as [|k IH]; intros rest H; [reflexivity|].
  destruct rest as [|t r]; [discriminate|].
  simpl in H. apply andb_prop in H. destruct H as [Ht H].
  apply negb_true_iff in Ht.
  cbn [failure_of skipn]. rewrite Ht. cbn [andb]. now apply IH.
Qed.

Lemma while_loop_failure (tokens : list str) :
  Forall token_ok tokens ->
  forall (budget : nat) (st : locals),
    length tokens - i st <= budget ->
    match failure_of (skipn (i st) tokens) with
    | Some e => while_loop budget tokens st = Raise e
    | None => exists st', while_loop budget tokens st = Return st'
    end.
Proof.
  intros Hok. induction budget as [|budget IH]; intros st Hb;
    destruct (i st <? length tokens) eqn:Hlt;
    try (apply Nat.ltb_lt in Hlt; lia);
    try (rewrite while_loop_done by exact Hlt;
         apply Nat.ltb_ge in Hlt; rewrite skipn_all2 by exact Hlt;
         now exists st).
  rewrite while_loop_turn by exact Hlt. apply Nat.ltb_lt in Hlt.
  destruct (nth_error tokens (i st)) as [cmd|] eqn:Hcmd;
    [|apply nth_error_None in Hcmd; lia].
  rewrite (skipn_at _ _ _ Hcmd). cbn [failure_of].
  assert (Hcmd_ok : token_ok cmd).
  { eapply Forall_forall; [exact Hok|]. eapply nth_error_In; exact Hcmd. }
  destruct Hcmd_ok as [Hc | Hn].
  - rewrite Hc.
    destruct (numbers_follow (operand_count cmd) (skipn (S (i st)) tokens)) eqn:Hnum;
      cbn [negb andb].
    + pose proof (loop_body_command tokens st cmd Hok Hcmd Hc) as Hturn.
      rewrite Hnum in Hturn. destruct Hturn as (st' & -> & Hi). cbn [bind].
      rewrite (failure_of_skip _ _ Hnum), skipn_skipn.
      replace (operand_count cmd + S (i st)) with (i st') by lia.
      apply IH. lia.
    + now rewrite (loop_body_command_kind tokens st cmd Hok Hcmd Hc Hnum).
  - rewrite (loop_body_number tokens st cmd Hcmd Hn).
    rewrite (number_token_not_command cmd Hn). cbn [bind negb andb].
    specialize (IH (mkLocals (points st) (current_x st) (current_y st)
                             (start_x st) (start_y st) (i st + 1))).
    cbn [i] in IH. replace (i st + 1) with (S (i st)) in * by lia.
    apply IH. lia.
Qed.

(** X6: the exception of the parser is that of the first command letter
    that lacks operands: [IndexError] when the tokens end before its
    operands are complete, [ValueError] when another command letter stands
    where one of its operands should be. *)
Theorem parse_exception_is_first_failure :
  forall (path_d : string) (e : exn),
    parse_svg_path_robust path_d = Raise e
    <-> failure_of (tokenize (chars path_d)) = Some e.
Proof.
  intros path_d e. unfold parse_svg_path_robust.
  set (tokens := tokenize (chars path_d)).
  pose proof (while_loop_failure tokens (token_ok_tokenize _) (length tokens)
                (mkLocals [] 0 0 0 0 0)) as H.
  cbn [i] in H. specialize (H ltac:(lia)). cbn [skipn] in H.
  destruct (failure_of tokens) as [e'|].
  - rewrite H. cbn [bind]. split; intros E; congruence.
  - destruct H as (st' & ->). cbn [bind]. split; discriminate.
Qed.

Example parse_exception_samples :
  map parse_svg_path_robust ["M0,0 L5"; "M0,0 L5 Z"; "M0,0 C1,1 2,2 L3,3"; "M 1"]%string
  = [Raise IndexError; Raise ValueError; Raise ValueError; Raise IndexError].
Proof. reflexivity. Qed.

(* ------------------------------------------------------------------ *)
(** ** The Close command *)





(* ------------------------------------------------------------------ *)
(** ** What a turn of the parser's loop can do to the polyline *)

Lemma float_item_Return_lt (tokens : list str) (j : nat) (q : Q) :
  float_item tokens j = Return q -> j < length tokens.
Proof.
  unfold float_item, item. intros H.
  destruct (nth_error tokens j) eqn:E; [|discriminate].
  apply nth_error_Some. congruence.
Qed.

Lemma float_item_app (tokens more : list str) (j : nat) (q : Q) :
  float_item tokens j = Return q -> float_item (tokens ++ more) j = Return q.
Proof.
  intros H. pose proof (float_item_Return_lt _ _ _ H) as Hj.
  unfold float_item, item in *. now rewrite nth_error_app1.
Qed.

(** Destructs the tests and the operand readings of a turn that returned. *)
Ltac turn_cases H :=
  repeat match type of H with
         | context [float_item ?t ?j] =>
             let E := fresh "E" in
             destruct (float_item t j) eqn:E; cbn [bind] in H;
             [| discriminate H ..]
         | context [if ?b then _ else _] => destruct b
         end.

(** A turn that returns appends to the polyline, moves [i] on, and leaves
    it within the tokens. *)
Lemma loop_body_appends (tokens : list str) (st st' : locals) :
  loop_body tokens st = Return st' ->
  (exists more, points st' = points st ++ more) /\
  i st < i st' <= length tokens.
Proof.
  unfold loop_body, item. intros H.
  destruct (nth_error tokens (i st)) as [cmd|] eqn:Hcmd; [|discriminate].
  assert (Hi : i st < length tokens) by (apply nth_error_Some; congruence).
  cbn [bind] in H. cbv zeta in H.
  turn_cases H;
    rewrite ?approximate_bezier_samples in H; cbn [bind] in H;
    apply Return_inj in H; subst st'; cbn [points i];
    repeat match goal with
           | E : float_item _ _ = Return _ |- _ =>
               apply float_item_Return_lt in E
           end;
    (split; [first [ now eexists | exists []; now rewrite app_nil_r ] | lia]).
Qed.

Lemma loop_body_extend (tokens more : list str) (st st' : locals) :
  loop_body tokens st = Return st' ->
  loop_body (tokens ++ more) st = Return st'.
Proof.
  unfold loop_body, item. intros H.
  destruct (nth_error tokens (i st)) as [cmd|] eqn:Hcmd; [|discriminate].
  assert (Hi : i st < length tokens) by (apply nth_error_Some; congruence).
  rewrite nth_error_app1, Hcmd by exact Hi.
  cbn [bind] in *. cbv zeta in *.
  repeat match type of H with
         | context [float_item tokens ?j] =>
             let E := fresh "E" in
             destruct (float_item tokens j) eqn:E; cbn [bind] in H;
             [rewrite (float_item_app tokens more j _ E); cbn [bind]
             | discriminate H ..]
         | context [if ?b then _ else _] => destruct b
         end;
    exact H.
Qed.

Lemma while_loop_appends (tokens : list str) :
  forall (budget : nat) (st st' : locals),
    while_loop budget tokens st = Return st' ->
    exists more, points st' = points st ++ more.
Proof.
  induction budget as [|budget IH]; intros st st' H;
    destruct (i st <? length tokens) eqn:Hlt;
    try (rewrite while_loop_done in H by exact Hlt;
         apply Return_inj in H; subst st'; exists []; now rewrite app_nil_r).
  - simpl in H. rewrite Hlt in H. discriminate.
  - rewrite while_loop_turn in H by exact Hlt.
    destruct (loop_body tokens st) as [st1| |] eqn:E; try discriminate.
    cbn [bind] in H.
    destruct (loop_body_appends _ _ _ E) as [(m1 & H1) _].
    destruct (IH _ _ H) as (m2 & H2).
    exists (m1 ++ m2). now rewrite H2, H1, app_assoc.
Qed.

(** The loop on more tokens does first what it did on the tokens alone. *)
Lemma while_loop_extend (tokens more : list str) :
  forall (budget : nat) (st st' : locals),
    while_loop budget tokens st = Return st' ->
    forall extra,
    exists left,
      while_loop (budget + extra) (tokens ++ more) st
      = while_loop (left + extra) (tokens ++ more) st'.
Proof.
  induction budget as [|budget IH]; intros st st' H extra;
    destruct (i st <? length tokens) eqn:Hlt;
    try (rewrite while_loop_done in H by exact Hlt;
         apply Return_inj in H; subst st'; now eexists).
  - simpl in H. rewrite Hlt in H. discriminate.
  - rewrite while_loop_turn in H by exact Hlt.
    destruct (loop_body tokens st) as [st1| |] eqn:E; try discriminate.
    cbn [bind] in H.
    destruct (IH _ _ H extra) as (left & Hleft). exists left.
    cbn [Nat.add]. rewrite while_loop_turn.
    + now rewrite (loop_body_extend _ more _ _ E).
    + apply Nat.ltb_lt in Hlt. apply Nat.ltb_lt. rewrite length_app. lia.
Qed.

(** X8: path data that follows a separator or a command letter cannot
    change the points already there: when [a] parses to a polyline, [a]
    followed by [c] and anything else raises or parses to a polyline that
    starts with the polyline of [a]. *)
Theorem parse_of_longer_path_extends_polyline :
  forall (a b : string) (c : ascii) (polyline : list point),
    separator c = true \/ command_letter c = true ->
    parse_svg_path_robust a = Return polyline ->
    (exists e, parse_svg_path_robust (a ++ String c b)%string = Raise e) \/
    (exists more,
       parse_svg_path_robust (a ++ String c b)%string = Return (polyline ++ more)).
Proof.
  intros a b c polyline Hc Ha.
  pose proof (parse_terminates (a ++ String c b)%string) as Hterm.
  unfold parse_svg_path_robust in *.
  assert (Htok : exists tb,
             tokenize (chars (a ++ String c b)%string) = tokenize (chars a) ++ tb).
  { destruct Hc as [Hc | Hc].
    - exists (tokenize (chars b)).
      apply (tokenize_separator a b c Hc).
    - exists ([c] :: tokenize (chars b)). rewrite chars_sep.
      now apply tokenize_command_letter. }
  destruct Htok as (tb & Htok). rewrite Htok in *.
  set (ta := tokenize (chars a)) in *.
  destruct (while_loop (length ta) ta (mkLocals [] 0 0 0 0 0)) as [st_a| |] eqn:Ea;
    try discriminate.
  cbn [bind] in Ha. apply Return_inj in Ha.
  destruct (while_loop_extend ta tb _ _ _ Ea (length tb)) as (left & Hleft).
  rewrite length_app, Hleft in *.
  destruct (while_loop (left + length tb) (ta ++ tb) st_a) as [st_f| e |] eqn:Ef;
    cbn [bind] in *.
  - right. destruct (while_loop_appends _ _ _ _ Ef) as (more & Hmore).
    exists more. now rewrite Hmore, Ha.
  - left. now exists e.
  - contradiction.
Qed.

Lemma parse_of_longer_path_extends_polyline_witness :
  (exists e, parse_svg_path_robust "M0,0 L4,0 L4,4 Z" = Raise e) \/
  (exists more,
     parse_svg_path_robust "M0,0 L4,0 L4,4 Z" = Return ([(0, 0); (4, 0)]%Q ++ more)).
Proof.
  apply (parse_of_longer_path_extends_polyline "M0,0 L4,0" "L4,4 Z" " "
           [(0, 0); (4, 0)]%Q (or_introl eq_refl) eq_refl).
Defined.

(* ------------------------------------------------------------------ *)
(** ** The mesh of a run *)

Lemma face_in_range_more (nv nv' : nat) (f : triangle) :
  nv <= nv' -> face_in_range nv f -> face_in_range nv' f.
Proof. destruct f as [[a b] c]. unfold face_in_range. lia. Qed.

Lemma triangulate_indices {A : Type} (points : list A) :
  Forall (indices_below (length points)) (triangulate_polygon_earclip points).
Proof.
  rewrite triangulate_closed_form.
  destruct (length points <? 3) eqn:E; [constructor|].
  apply Nat.ltb_ge in E. apply Forall_forall. intros t Ht.
  apply in_map_iff in Ht. destruct Ht as (k & <- & Hk).
  apply in_seq in Hk. unfold fan_triangle, indices_below. lia.
Qed.

Lemma walls_indices (n : nat) : Forall (indices_below (2 * n)) (walls n).
Proof.
  unfold walls. apply Forall_forall. intros t Ht.
  apply in_flat_map in Ht. destruct Ht as (k & Hk & Ht).
  apply in_seq in Hk.
  assert (Hmod : (k + 1) mod n < n) by (apply Nat.mod_upper_bound; lia).
  unfold wall in Ht. cbn [In] in Ht.
  destruct Ht as [<- | [<- | []]]; unfold indices_below; lia.
Qed.

Lemma extrude_keeps_mesh_ok (depth : Q) (pts : list point) (m : mesh) :
  mesh_ok m -> mesh_ok (extrude depth pts m).
Proof.
  unfold mesh_ok. intros Hm.
  rewrite extrude_vertices, extrude_faces, !length_app, !length_map.
  set (nv := length (vertices m)). set (n := length pts).
  apply Forall_app. split.
  - eapply Forall_impl; [|exact Hm]. intros f. apply face_in_range_more. lia.
  - unfold cap_faces, side_faces. fold n.
    repeat (apply Forall_app; split); apply Forall_forall; intros f Hf;
      apply in_map_iff in Hf; destruct Hf as (t & <- & Ht).
    + pose proof (triangulate_indices pts) as Hall.
      rewrite Forall_forall in Hall. specialize (Hall t Ht).
      destruct t as [[a b] c]. unfold indices_below in Hall. fold n in Hall.
      unfold at_offset, face_in_range. lia.
    + apply in_map_iff in Ht. destruct Ht as (t' & <- & Ht').
      pose proof (triangulate_indices pts) as Hall.
      rewrite Forall_forall in Hall. specialize (Hall t' Ht').
      destruct t' as [[a b] c]. unfold indices_below in Hall. fold n in Hall.
      unfold swap_last_two, at_offset, face_in_range. lia.
    + pose proof (walls_indices n) as Hall.
      rewrite Forall_forall in Hall. specialize (Hall t Ht).
      destruct t as [[a b] c]. unfold indices_below in Hall.
      unfold at_offset, face_in_range. lia.
Qed.

Lemma path_turn_keeps_mesh_ok (scale depth : Q) (p : option string) (m m' : mesh) :
  path_turn scale depth p m = Return m' -> mesh_ok m -> mesh_ok m'.
Proof.
  unfold path_turn. intros H Hm.
  destruct p as [[|c d]|]; try (apply Return_inj in H; now subst).
  destruct (parse_svg_path_robust (String c d)) as [pts| |]; try discriminate.
  cbn [bind] in H.
  destruct (length pts <? 3); apply Return_inj in H; subst; [assumption|].
  now apply extrude_keeps_mesh_ok.
Qed.

Lemma for_paths_keeps_mesh_ok (scale depth : Q) (paths : list (option string)) :
  forall m m' : mesh,
    for_paths scale depth paths m = Return m' -> mesh_ok m -> mesh_ok m'.
Proof.
  induction paths as [|p paths IH]; intros m m' H Hm.
  - apply Return_inj in H. now subst.
  - rewrite for_paths_cons in H.
    destruct (path_turn scale depth p m) as [m1| |] eqn:E; try discriminate.
    cbn [bind] in H. apply (IH m1 m' H).
    now apply (path_turn_keeps_mesh_ok scale depth p m m1).
Qed.

(** X9: in the mesh of a run that returns, every face index is between 1
    and the number of vertices: each face line of the output names vertices
    that are there. *)
Theorem run_faces_name_existing_vertices :
  forall (scale depth : Q) (paths : list (option string)) (m : mesh),
    svg_to_obj scale depth paths = Return m ->
    mesh_ok m.
Proof.
  intros scale depth paths m H.
  apply (for_paths_keeps_mesh_ok scale depth paths (mkMesh [] []) m H).
  constructor.
Qed.

Lemma run_faces_name_existing_vertices_witness :
  exists m,
    svg_to_obj 1 2 [Some "M0,0 L4,0 L4,4 L0,4 Z"; None; Some "M9,9 c1,1 2,1 3,0"]%string
    = Return m /\ mesh_ok m.
Proof.
  eexists. split; [reflexivity|].
  apply (run_faces_name_existing_vertices
           1 2 [Some "M0,0 L4,0 L4,4 L0,4 Z"; None; Some "M9,9 c1,1 2,1 3,0"]%string).
  reflexivity.
Defined.

Lemma scale_points_map (scale : Q) (pts : list point) :
  scale_points scale pts
  = map (fun p => (fst p * scale, - snd p * scale)%Q) pts.
Proof.
  unfold scale_points.
  enough (H : forall acc,
             fold_left
               (fun scaled_points '(x, y) =>
                  let scaled_x := (x * scale)%Q in
                  let scaled_y := (- y * scale)%Q in
                  scaled_points ++ [(scaled_x, scaled_y)])
               pts acc
             = acc ++ map (fun p => (fst p * scale, - snd p * scale)%Q) pts)
    by apply (H []).
  induction pts as [|[x y] l IH]; intros acc; simpl.
  - now rewrite app_nil_r.
  - now rewrite IH, <- app_assoc.
Qed.

Lemma path_turn_adds (scale depth : Q) (p : option string) (m m' : mesh) :
  path_turn scale depth p m = Return m' ->
  exists vs fs,
    vertices m' = vertices m ++ vs /\
    faces m' = faces m ++ fs /\
    length fs + 4 * (if is_polygon p then 1 else 0) = 2 * length vs.
Proof.
  unfold path_turn, is_polygon. intros H.
  destruct p as [[|c d]|];
    try (apply Return_inj in H; subst; exists [], [];
         now rewrite !app_nil_r).
  destruct (parse_svg_path_robust (String c d)) as [pts| |]; try discriminate.
  cbn [bind] in H.
  destruct (length pts <? 3) eqn:E; apply Return_inj in H; subst.
  - apply Nat.ltb_lt in E. apply Nat.leb_gt in E. rewrite E.
    exists [], []. now rewrite !app_nil_r.
  - apply Nat.ltb_ge in E.
    assert (Hs : length (scale_points scale pts) = length pts)
      by now rewrite scale_points_map, length_map.
    apply Nat.leb_le in E as E'. rewrite E'.
    eexists. eexists.
    split; [apply extrude_vertices|]. split; [apply extrude_faces|].
    rewrite !length_app, !length_map, cap_faces_length, side_faces_length, Hs.
    lia.
Qed.

(** X10: a run only appends to the two buffers, and what it appends
    satisfies [faces + 4 * polygons = 2 * vertices], where [polygons] counts
    the paths that are extruded: each polygon adds the face count of a
    closed triangle mesh on its vertices. *)
Theorem run_appends_closed_solids :
  forall (scale depth : Q) (paths : list (option string)) (m m' : mesh),
    for_paths scale depth paths m = Return m' ->
    exists vs fs,
      vertices m' = vertices m ++ vs /\
      faces m' = faces m ++ fs /\
      length fs + 4 * length (filter is_polygon paths) = 2 * length vs.
Proof.
  intros scale depth paths. induction paths as [|p paths IH]; intros m m' H.
  - apply Return_inj in H. subst. exists [], []. now rewrite !app_nil_r.
  - rewrite for_paths_cons in H.
    destruct (path_turn scale depth p m) as [m1| |] eqn:E; try discriminate.
    cbn [bind] in H.
    destruct (path_turn_adds _ _ _ _ _ E) as (vs1 & fs1 & Hv1 & Hf1 & Hc1).
    destruct (IH _ _ H) as (vs2 & fs2 & Hv2 & Hf2 & Hc2).
    exists (vs1 ++ vs2), (fs1 ++ fs2).
    rewrite Hv2, Hv1, Hf2, Hf1, <- !app_assoc.
    repeat split. rewrite !length_app. cbn [filter].
    destruct (is_polygon p); cbn [length]; lia.
Qed.

Lemma run_appends_closed_solids_witness :
  exists vs fs,
    length fs + 4 * 2 = 2 * length vs /\
    svg_to_obj 1 2 [Some "M0,0 L4,0 L4,4 L0,4 Z"; Some "M1,1 L2,2"; Some "M9,9 c1,1 2,1 3,0"]%string
    = Return (mkMesh vs fs).
Proof.
  destruct (run_appends_closed_solids
              1 2 [Some "M0,0 L4,0 L4,4 L0,4 Z"; Some "M1,1 L2,2"; Some "M9,9 c1,1 2,1 3,0"]%string
              (mkMesh [] []) _ eq_refl)
    as (vs & fs & Hv & Hf & Hc).
  exists vs, fs. split; [exact Hc|].
  cbn [vertices faces app] in Hv, Hf. rewrite <- Hv, <- Hf. reflexivity.
Defined.

(** X11: a path element without a [d] attribute, or with an empty one, is
    passed over: the run with it gives what the run without it gives. *)
Theorem path_without_data_is_skipped :
  forall (scale depth : Q) (before after : list (option string)) (m : mesh),
    for_paths scale depth (before ++ None :: after) m
    = for_paths scale depth (before ++ after) m /\
    for_paths scale depth (before ++ Some EmptyString :: after) m
    = for_paths scale depth (before ++ after) m.
Proof.
  intros scale depth before after m. rewrite !for_paths_app.
  destruct (for_paths scale depth before m) as [m1| |]; cbn [bind];
    [|split; reflexivity..].
  now rewrite !for_paths_cons.
Qed.

(** X12: a path whose string parses to [N >= 3] points is extruded from the
    parsed points scaled and with the vertical axis turned over: it adds the
    vertices [(x * scale, -y * scale, depth/2)] for the parsed points in
    order, then the same at [-depth/2], and [4N - 4] faces after the faces
    that were there. *)
Theorem polygon_path_adds_scaled_prism :
  forall (scale depth : Q) (d : string) (pts : list point) (m : mesh),
    parse_svg_path_robust d = Return pts ->
    3 <= length pts ->
    exists m',
      path_turn scale depth (Some d) m = Return m' /\
      vertices m'
      = vertices m
        ++ map (fun p => (fst p * scale, - snd p * scale, depth / 2)%Q) pts
        ++ map (fun p => (fst p * scale, - snd p * scale, - depth / 2)%Q) pts /\
      firstn (length (faces m)) (faces m') = faces m /\
      length (faces m') = length (faces m) + 4 * length pts - 4.
Proof.
  intros scale depth d pts m Hp Hn.
  exists (extrude depth (scale_points scale pts) m).
  split.
  - unfold path_turn. destruct d as [|c d].
    + compute in Hp. apply Return_inj in Hp. subst pts. simpl in Hn. lia.
    + rewrite Hp. cbn [bind]. apply Nat.ltb_ge in Hn. now rewrite Hn.
  - rewrite extrude_vertices, extrude_faces, scale_points_map, !map_map.
    split; [reflexivity|]. split.
    + now rewrite firstn_app, firstn_all, Nat.sub_diag, app_nil_r.
    + rewrite !length_app, cap_faces_length, side_faces_length, length_map.
      unfold point in *. lia.
Qed.

Lemma polygon_path_adds_scaled_prism_witness :
  exists m',
    path_turn (1 # 2) 2 (Some "M0,0 L4,0 L4,4"%string) (mkMesh [] []) = Return m' /\
    vertices m'
    = map (fun p => (fst p * (1 # 2), - snd p * (1 # 2), 2 / 2)%Q)
          [(0, 0); (4, 0); (4, 4)]%Q
      ++ map (fun p => (fst p * (1 # 2), - snd p * (1 # 2), - (2) / 2)%Q)
             [(0, 0); (4, 0); (4, 4)]%Q /\
    length (faces m') = 8.
Proof.
  destruct (polygon_path_adds_scaled_prism
              (1 # 2) 2 "M0,0 L4,0 L4,4" [(0, 0); (4, 0); (4, 4)]%Q (mkMesh [] [])
              eq_refl ltac:(simpl; lia))
    as (m' & H1 & H2 & _ & H3).
  exists m'. repeat split; assumption.
Defined.

(* ------------------------------------------------------------------ *)
(** ** The fan and the walls *)

Lemma fan_triangle_injective (x y : nat) : fan_triangle x = fan_triangle y -> x = y.
Proof. unfold fan_triangle. intros H. now injection H. Qed.

(** X13: for three points or more the fan leaves no point out and repeats
    no triangle: every index below [n] is an index of some triangle, and the
    triangles are pairwise different. *)
Theorem fan_uses_every_point_once :
  forall (A : Type) (points : list A),
    3 <= length points ->
    (forall k, k < length points ->
       exists t, In t (triangulate_polygon_earclip points) /\ uses t k) /\
    NoDup (triangulate_polygon_earclip points).
Proof.
  intros A points Hn. rewrite triangulate_closed_form.
  apply Nat.ltb_ge in Hn as Hn'. rewrite Hn'. split.
  - intros k Hk.
    destruct (Nat.eq_dec k 0) as [-> | Hk0].
    + exists (fan_triangle 1). split; [|left; reflexivity].
      apply in_map, in_seq. lia.
    + destruct (Nat.eq_dec k (length points - 1)) as [-> | Hk1].
      * exists (fan_triangle (length points - 2)). split.
        -- apply in_map, in_seq. lia.
        -- right; right. lia.
      * exists (fan_triangle k). split; [|right; left; reflexivity].
        apply in_map, in_seq. lia.
  - apply NoDup_map_NoDup_ForallPairs; [|apply seq_NoDup].
    intros x y _ _. apply fan_triangle_injective.
Qed.

Lemma fan_uses_every_point_once_witness :
  (forall k, k < 5 ->
     exists t, In t (triangulate_polygon_earclip [1; 2; 3; 4; 5]) /\ uses t k) /\
  NoDup (triangulate_polygon_earclip [1; 2; 3; 4; 5]).
Proof.
  apply (fan_uses_every_point_once nat [1; 2; 3; 4; 5]). simpl. lia.
Defined.

(** X14: the walls go round: for a polygon of [n >= 1] points the last two
    faces added join the last point to the first, front vertex [n] and back
    vertex [2n] to back vertex [n + 1] and front vertex [1] of the block,
    so the index after the last wraps to the first and never leaves the
    block. *)
Theorem last_wall_returns_to_first_point :
  forall (depth : Q) (pts : list point) (m : mesh),
    0 < length pts ->
    exists front,
      faces (extrude depth pts m)
      = front
        ++ [(length (vertices m) + length pts,
             length (vertices m) + 2 * length pts,
             length (vertices m) + length pts + 1);
            (length (vertices m) + length pts,
             length (vertices m) + length pts + 1,
             length (vertices m) + 1)].
Proof.
  intros depth pts m Hn. rewrite extrude_faces.
  set (nv := length (vertices m)). set (n := length pts) in *.
  unfold side_faces, walls. fold n.
  assert (Hseq : seq 0 n = seq 0 (n - 1) ++ [n - 1]).
  { change [n - 1] with [0 + (n - 1)].
    rewrite <- (seq_S (n - 1) 0). f_equal. lia. }
  rewrite Hseq, flat_map_app, map_app. cbn [flat_map app Nat.add].
  unfold wall at 2. cbn [map].
  replace ((n - 1 + 1) mod n) with 0
    by (replace (n - 1 + 1) with n by lia; now rewrite Nat.Div0.mod_same).
  unfold at_offset.
  eexists. rewrite !app_assoc. f_equal.
  unfold triangle. cbn [map app].
  repeat match goal with
         | |- @eq nat _ _ => lia
         | _ => f_equal
         end.
Qed.

Lemma last_wall_returns_to_first_point_witness :
  exists front,
    faces (extrude 2 [(0, 0); (4, 0); (4, -4); (0, -4)]%Q (mkMesh [] []))
    = front ++ [(4, 8, 5); (4, 5, 1)].
Proof.
  destruct (last_wall_returns_to_first_point
              2 [(0, 0); (4, 0); (4, -4); (0, -4)]%Q (mkMesh [] [])
              ltac:(simpl; lia)) as (front & H).
  exists front. exact H.
Defined.

(* ------------------------------------------------------------------ *)
(** ** How many points a path gives *)

Lemma total_cons (f : str -> nat) (t : str) (toks : list str) :
  total f (t :: toks) = f t + total f toks.
Proof. reflexivity. Qed.

Lemma number_drawn_closing (t : str) :
  is_command t = false -> token_ok t -> drawn t = 0 /\ closing t = 0.
Proof.
  intros Hc [H | H]; [congruence|].
  apply number_token_head in H. destruct H as (c & r & -> & Hs).
  destruct r as [|c' r]; [|split; reflexivity].
  destruct c as [b0 b1 b2 b3 b4 b5 b6 b7].
  destruct b0, b1, b2, b3, b4, b5, b6, b7; try discriminate Hs;
    split; reflexivity.
Qed.

Lemma total_skip_numbers (f : str -> nat) (k : nat) :
  (forall t, is_command t = false -> token_ok t -> f t = 0) ->
  forall rest,
    Forall token_ok rest ->
    numbers_follow k rest = true ->
    total f rest = total f (skipn k rest).
Proof.
  intros Hf. induction k as [|k IH]; intros rest Hok H; [reflexivity|].
  destruct rest as [|t r]; [discriminate|].
  inversion Hok as [|? ? Hokt Hokr]; subst.
  simpl in H. apply andb_prop in H. destruct H as [Ht H].
  apply negb_true_iff in Ht.
  rewrite total_cons, (Hf t Ht Hokt). cbn [skipn Nat.add]. now apply IH.
Qed.

(** The points a turn on a command letter appends. *)
Lemma loop_body_command_length (tokens : list str) (st st' : locals) (cmd : str) :
  nth_error tokens (i st) = Some cmd ->
  is_command cmd = true ->
  loop_body tokens st = Return st' ->
  length (points st) + drawn cmd <= length (points st')
  <= length (points st) + drawn cmd + closing cmd.
Proof.
  intros Hcmd Hc H. unfold loop_body, item in H. rewrite Hcmd in H.
  cbn [bind] in H. cbv zeta in H.
  apply command_cases in Hc. simpl in Hc.
  repeat (destruct Hc as [<- | Hc]); try contradiction;
    cbn -[float_item approximate_bezier Qplus pair_neq] in H;
    turn_cases H;
    rewrite ?approximate_bezier_samples in H; cbn [bind] in H;
    apply Return_inj in H; subst st'; cbn [points];
    rewrite ?length_app, ?length_skipn, ?length_map, ?length_seq;
    cbn [length drawn closing]; simpl; lia.
Qed.

Lemma while_loop_counts (tokens : list str) :
  Forall token_ok tokens ->
  forall (budget : nat) (st st' : locals),
    while_loop budget tokens st = Return st' ->
    length (points st) + total drawn (skipn (i st) tokens)
    <= length (points st')
    <= length (points st) + total drawn (skipn (i st) tokens)
       + total closing (skipn (i st) tokens).
Proof.
  intros Hok. induction budget as [|budget IH]; intros st st' H;
    destruct (i st <? length tokens) eqn:Hlt;
    try (rewrite while_loop_done in H by exact Hlt;
         apply Return_inj in H; subst st';
         apply Nat.ltb_ge in Hlt; rewrite skipn_all2 by exact Hlt;
         cbn; lia).
  - simpl in H. rewrite Hlt in H. discriminate.
  - rewrite while_loop_turn in H by exact Hlt. apply Nat.ltb_lt in Hlt.
    destruct (loop_body tokens st) as [st1| |] eqn:E; try discriminate.
    cbn [bind] in H. specialize (IH _ _ H).
    destruct (nth_error tokens (i st)) as [cmd|] eqn:Hcmd;
      [|apply nth_error_None in Hcmd; lia].
    rewrite (skipn_at _ _ _ Hcmd), !total_cons.
    assert (Hrest : Forall token_ok (skipn (S (i st)) tokens))
      by now apply Forall_skipn.
    assert (Hcmd_ok : token_ok cmd).
    { eapply Forall_forall; [exact Hok|]. eapply nth_error_In; exact Hcmd. }
    destruct (is_command cmd) eqn:Hc.
    + pose proof (loop_body_command tokens st cmd Hok Hcmd Hc) as Hturn.
      destruct (numbers_follow (operand_count cmd) (skipn (S (i st)) tokens))
        eqn:Hnum.
      * destruct Hturn as (st1' & E' & Hi). rewrite E in E'.
        apply Return_inj in E'. subst st1'.
        pose proof (loop_body_command_length _ _ _ _ Hcmd Hc E) as Hlen.
        rewrite (total_skip_numbers drawn _
                   (fun t H1 H2 => proj1 (number_drawn_closing t H1 H2))
                   _ Hrest Hnum).
        rewrite (total_skip_numbers closing _
                   (fun t H1 H2 => proj2 (number_drawn_closing t H1 H2))
                   _ Hrest Hnum).
        rewrite skipn_skipn.
        replace (operand_count cmd + S (i st)) with (i st1) by lia.
        lia.
      * destruct Hturn as (e & E' & _). congruence.
    + destruct Hcmd_ok as [Hc' | Hn]; [congruence|].
      rewrite (loop_body_number tokens st cmd Hcmd Hn) in E.
      apply Return_inj in E. subst st1. cbn [points i] in IH.
      destruct (number_drawn_closing cmd Hc (or_intror Hn)) as [-> ->].
      replace (i st + 1) with (S (i st)) in IH by lia. lia.
Qed.

Lemma parse_polyline_length (path_d : string) (polyline : list point) :
  parse_svg_path_robust path_d = Return polyline ->
  total drawn (tokenize (chars path_d)) <= length polyline
  <= total drawn (tokenize (chars path_d))
     + total closing (tokenize (chars path_d)).
Proof.
  intros H. unfold parse_svg_path_robust in H.
  set (tokens := tokenize (chars path_d)) in *.
  destruct (while_loop (length tokens) tokens (mkLocals [] 0 0 0 0 0))
    as [st'| |] eqn:E; try discriminate.
  cbn [bind] in H. apply Return_inj in H. subst polyline.
  pose proof (while_loop_counts tokens (token_ok_tokenize _) _ _ _ E) as Hc.
  cbn [points i skipn length Nat.add] in Hc. exact Hc.
Qed.

(** X15: when the parser returns, the polyline has one point for every
    Move, Line, Horizontal and Vertical letter of the string, five for every
    Cubic letter, and at most one more for every Close letter. *)
Theorem polyline_length_from_command_letters :
  forall (path_d : string) (polyline : list point),
    parse_svg_path_robust path_d = Return polyline ->
    total drawn (tokenize (chars path_d)) <= length polyline
    <= total drawn (tokenize (chars path_d))
       + total closing (tokenize (chars path_d)).
Proof. exact parse_polyline_length. Qed.

Lemma polyline_length_from_command_letters_witness :
  exists polyline,
    parse_svg_path_robust "M0,0 h4 c1,1 2,1 3,0 Z z" = Return polyline /\
    total drawn (tokenize (chars "M0,0 h4 c1,1 2,1 3,0 Z z")) = 7 /\
    total closing (tokenize (chars "M0,0 h4 c1,1 2,1 3,0 Z z")) = 2 /\
    7 <= length polyline <= 7 + 2.
Proof.
  eexists. split; [vm_compute; reflexivity|].
  split; [reflexivity|]. split; [reflexivity|].
  apply (polyline_length_from_command_letters "M0,0 h4 c1,1 2,1 3,0 Z z").
  vm_compute. reflexivity.
Defined.

Lemma parse_returns_when_complete (path_d : string) :
  lacks_operands (tokenize (chars path_d)) = false ->
  exists polyline, parse_svg_path_robust path_d = Return polyline.
Proof.
  intros Hl. unfold parse_svg_path_robust.
  set (tokens := tokenize (chars path_d)) in *.
  pose proof (while_loop_decides tokens (token_ok_tokenize _) (length tokens)
                (mkLocals [] 0 0 0 0 0)) as H.
  cbn [i] in H. specialize (H ltac:(lia)). cbn [skipn] in H.
  rewrite Hl in H. destruct H as (st' & -> & _). cbn [bind]. eauto.
Qed.

(** X16: whether a path with all its operands becomes geometry can be read
    off its letters: with three points' worth of Move, Line, Horizontal,
    Vertical (one each) and Cubic (five each) letters it is extruded; when
    even with one point for every Close letter there are fewer than three,
    it is passed over. *)
Theorem complete_path_is_extruded_by_its_letters :
  forall d : string,
    lacks_operands (tokenize (chars d)) = false ->
    (3 <= total drawn (tokenize (chars d)) -> is_polygon (Some d) = true) /\
    (total drawn (tokenize (chars d)) + total closing (tokenize (chars d)) < 3 ->
     is_polygon (Some d) = false).
Proof.
  intros d Hl.
  destruct (parse_returns_when_complete d Hl) as (pts & Hp).
  pose proof (parse_polyline_length d pts Hp) as Hlen.
  unfold is_polygon. destruct d as [|c d].
  - split; [intros H; exfalso; cbn in H; lia | reflexivity].
  - rewrite Hp. split; intros H.
    + apply Nat.leb_le. lia.
    + apply Nat.leb_gt. lia.
Qed.

Lemma complete_path_is_extruded_by_its_letters_witness :
  is_polygon (Some "M0,0 c1,1 2,1 3,0"%string) = true /\
  is_polygon (Some "M0,0 9 L4,0"%string) = false.
Proof.
  split.
  - apply (proj1 (complete_path_is_extruded_by_its_letters
                    "M0,0 c1,1 2,1 3,0" eq_refl)).
    vm_compute. lia.
  - apply (proj2 (complete_path_is_extruded_by_its_letters
                    "M0,0 9 L4,0" eq_refl)).
    vm_compute. lia.
Defined.

(* ------------------------------------------------------------------ *)
(** ** Tokens and [float] *)

(** X17: every token of a string is a command letter or a number that
    [float] converts: the pattern of line 28 lets through no number that
    [float] would refuse, so a [ValueError] can only come from a command
    letter standing where an operand is read. *)
Theorem tokens_are_commands_or_convertible_numbers :
  forall (path_d : string) (t : str),
    In t (tokenize (chars path_d)) ->
    (is_command t = true /\ float t = Raise ValueError) \/
    (is_command t = false /\ exists q, float t = Return q).
Proof.
  intros path_d t Hin.
  pose proof (token_ok_tokenize (chars path_d)) as Hok.
  rewrite Forall_forall in Hok. destruct (Hok t Hin) as [Hc | Hn].
  - left. split; [exact Hc | now apply command_float].
  - right. split; [now apply number_token_not_command
                  | now apply number_token_float].
Qed.

Lemma tokens_are_commands_or_convertible_numbers_witness :
  (is_command (chars "-.5e+2") = true /\ float (chars "-.5e+2") = Raise ValueError) \/
  (is_command (chars "-.5e+2") = false /\ exists q, float (chars "-.5e+2") = Return q).
Proof.
  apply (tokens_are_commands_or_convertible_numbers "M3-.5e+2,7").
  vm_compute. auto.
Defined.

(* ------------------------------------------------------------------ *)
(** ** Paths are extruded independently of each other *)

Lemma shift_0 (t : triangle) : shift 0 t = t.
Proof. destruct t as [[a b] c]. unfold shift. now rewrite !Nat.add_0_r. Qed.

Lemma shift_shift (j k : nat) (t : triangle) :
  shift k (shift j t) = shift (j + k) t.
Proof.
  destruct t as [[a b] c]. unfold shift.
  now rewrite <- !Nat.add_assoc.
Qed.

Lemma shift_at_offset (k start : nat) (t : triangle) :
  shift k (at_offset start t) = at_offset (k + start) t.
Proof.
  destruct t as [[a b] c]. unfold shift, at_offset, triangle.
  repeat match goal with
         | |- @eq nat _ _ => lia
         | _ => f_equal
         end.
Qed.

Lemma merge_empty (m : mesh) : merge (mkMesh [] []) m = m.
Proof.
  destruct m as [vs fs]. unfold merge. cbn [vertices faces length app].
  f_equal. rewrite <- (map_id fs) at 2. apply map_ext. intros t. apply shift_0.
Qed.

Lemma merge_assoc (m1 m2 m3 : mesh) :
  merge (merge m1 m2) m3 = merge m1 (merge m2 m3).
Proof.
  unfold merge. cbn [vertices faces]. rewrite <- !app_assoc. f_equal.
  f_equal. rewrite map_app, map_map, length_app. f_equal.
  apply map_ext. intros t. rewrite shift_shift. f_equal. lia.
Qed.

(** What a polygon adds to a mesh is what it adds to the empty mesh, with the
    faces moved by the vertices that were there. *)
Lemma extrude_merge (depth : Q) (pts : list point) (m : mesh) :
  extrude depth pts m = merge m (extrude depth pts (mkMesh [] [])).
Proof.
  rewrite !extrude_closed_form. unfold merge. cbn [vertices faces length app Nat.add].
  apply (f_equal (mkMesh _)). apply (f_equal (app _)).
  rewrite !map_app, !map_map.
  apply (f_equal2 (@app triangle)); [|apply (f_equal2 (@app triangle))];
    apply map_ext; intros t; rewrite shift_at_offset; f_equal; lia.
Qed.

Lemma path_turn_merge (scale depth : Q) (p : option string) (m : mesh) :
  path_turn scale depth p m
  = m0 <- path_turn scale depth p (mkMesh [] []) ;; Return (merge m m0).
Proof.
  assert (Hid : merge m (mkMesh [] []) = m).
  { destruct m as [vs fs]. unfold merge. cbn. now rewrite !app_nil_r. }
  unfold path_turn. destruct p as [[|c d]|]; cbn [bind]; try now rewrite Hid.
  destruct (parse_svg_path_robust (String c d)) as [pts| |]; cbn [bind];
    try reflexivity.
  destruct (length pts <? 3); cbn [bind]; [now rewrite Hid|].
  now rewrite extrude_merge.
Qed.

Lemma for_paths_merge (scale depth : Q) (paths : list (option string)) :
  forall m : mesh,
    for_paths scale depth paths m
    = m0 <- for_paths scale depth paths (mkMesh [] []) ;; Return (merge m m0).
Proof.
  induction paths as [|p paths IH]; intros m.
  - unfold for_paths. cbn. unfold merge. cbn. now rewrite !app_nil_r; destruct m.
  - rewrite !for_paths_cons, (path_turn_merge scale depth p m).
    destruct (path_turn scale depth p (mkMesh [] [])) as [m1| |]; cbn [bind];
      try reflexivity.
    rewrite (IH (merge m m1)), (IH m1).
    destruct (for_paths scale depth paths (mkMesh [] [])) as [m2| |]; cbn [bind];
      try reflexivity.
    now rewrite merge_assoc.
Qed.

(** X18: the paths are extruded independently: the run over two lists of
    paths one after the other is the run over the first followed by the run
    over the second, merged by putting the vertices of the second after those
    of the first and moving its face indices by their number; an exception
    in either ends the whole run. *)
Theorem run_of_concatenation_is_merge_of_runs :
  forall (scale depth : Q) (paths1 paths2 : list (option string)),
    svg_to_obj scale depth (paths1 ++ paths2)
    = m1 <- svg_to_obj scale depth paths1 ;;
      m2 <- svg_to_obj scale depth paths2 ;;
      Return (merge m1 m2).
Proof.
  intros scale depth paths1 paths2. unfold svg_to_obj.
  rewrite for_paths_app.
  destruct (for_paths scale depth paths1 (mkMesh [] [])) as [m1| |]; cbn [bind];
    try reflexivity.
  apply for_paths_merge.
Qed.

Example run_of_concatenation_sample :
  svg_to_obj 1 2 [Some "M0,0 L4,0 L4,4"; Some "M1,1 L2,1 L2,2 L1,2"]%string
  = m1 <- svg_to_obj 1 2 [Some "M0,0 L4,0 L4,4"%string] ;;
    m2 <- svg_to_obj 1 2 [Some "M1,1 L2,1 L2,2 L1,2"%string] ;;
    Return (merge m1 m2).
Proof. reflexivity. Qed.
